(** * The document lifecycle core of react-pdf, embedded in Rocq

    The development follows [Document.tsx] (the [Document] component and
    its handlers) and [shared/eventBus.js] (the [EventBus] class).

    - JavaScript objects compared with [===] are given an identity (a
      natural number); listener functions, refs and file objects are such
      identities.
    - Arrays with holes ([new Array(n)]) are lists of options.
    - Code outside the repository (the parsing engine, the download sink,
      the listeners themselves) is a parameter of the definitions. *)

From stdpp Require Import gmap strings list.

Set Warnings "-register-all".

(** ** shared/eventBus.js *)

Module EventBus.

(** A listener is a function; the bus only ever compares listeners with
    [===], so a listener is modelled by its identity. *)
Definition Listener := nat.
Definition Data := nat.

(** One element of [#listeners[eventName]]. *)
Record entry := Entry { listener : Listener; external : bool; once : bool }.

(** The [options] argument of [on]/[_on]: either field may be missing. *)
Record options := Options { opt_external : option bool; opt_once : option bool }.

(** [#listeners]: an object without prototype, used as a map from event
    names to arrays of entries. *)
Abbreviation Table := (gmap string (list entry)).

(** [x === true] for an optional boolean field. *)
Definition is_true (x : option bool) : bool :=
  match x with Some true => true | _ => false end.

Definition _on (eventName : string) (l : Listener) (opts : option options)
    (t : Table) : Table :=
  let eventListeners := default [] (t !! eventName) in
  <[eventName := eventListeners ++
      [Entry l (is_true (opts ≫= opt_external)) (is_true (opts ≫= opt_once))]]> t.

(** The loop of [_off]: splice out the first entry whose listener is
    the given one, whatever its flags. *)
Fixpoint remove_first (l : Listener) (eventListeners : list entry) : list entry :=
  match eventListeners with
  | [] => []
  | e :: rest => if decide (listener e = l) then rest else e :: remove_first l rest
  end.

Definition _off (eventName : string) (l : Listener) (opts : option options)
    (t : Table) : Table :=
  match t !! eventName with
  | None => t
  | Some eventListeners => <[eventName := remove_first l eventListeners]> t
  end.

Definition on (eventName : string) (l : Listener) (opts : option options) : Table → Table :=
  _on eventName l (Some (Options (Some true) (opts ≫= opt_once))).

Definition off (eventName : string) (l : Listener) (opts : option options) : Table → Table :=
  _off eventName l (Some (Options (Some true) (opts ≫= opt_once))).

(** What a call [listener(data)] made by [dispatch] looks like from
    outside: under which event name it was made, on which listener, the
    table as it was when the listener was entered, and the calls made by
    nested dispatches while the listener ran. *)
Inductive call :=
  Call (eventName : string) (l : Listener) (data : Data) (registered : Table)
       (inner : list call).

(** A listener returns or throws; either way it leaves a table behind. *)
Inductive outcome := Returned (t : Table) | Threw (t : Table).

Definition table_of (o : outcome) : Table :=
  match o with Returned t | Threw t => t end.

(** The listeners' code: arbitrary, it may use the bus it is called from. *)
Definition behaviour := Listener → Data → Table → list call * outcome.

Section dispatch.
Variable run : behaviour.

(** [listener(data)] *)
Definition invoke (eventName : string) (l : Listener) (data : Data) (t : Table)
    : call * outcome :=
  let '(inner, o) := run l data t in (Call eventName l data t inner, o).

(** The second loop of [dispatch], over [externalListeners]. *)
Fixpoint dispatch_external (eventName : string) (externalListeners : list Listener)
    (data : Data) (t : Table) : list call * outcome :=
  match externalListeners with
  | [] => ([], Returned t)
  | l :: rest =>
      let '(c, o) := invoke eventName l data t in
      match o with
      | Returned t' =>
          let '(cs, o') := dispatch_external eventName rest data t' in (c :: cs, o')
      | Threw t' => ([c], Threw t')
      end
  end.

(** The first loop of [dispatch], over the copy of the listener
    array; [externalListeners] is the array built on the way (the
    empty list stands for the still undefined variable). *)
Fixpoint dispatch_loop (eventName : string) (snapshot : list entry)
    (externalListeners : list Listener) (data : Data) (t : Table)
    : list call * outcome :=
  match snapshot with
  | [] => dispatch_external eventName externalListeners data t
  | e :: rest =>
      let t1 := if once e then _off eventName (listener e) None t else t in
      if external e
      then dispatch_loop eventName rest (externalListeners ++ [listener e]) data t1
      else
        let '(c, o) := invoke eventName (listener e) data t1 in
        match o with
        | Returned t2 =>
            let '(cs, o') := dispatch_loop eventName rest externalListeners data t2 in
            (c :: cs, o')
        | Threw t2 => ([c], Threw t2)
        end
  end.

Definition dispatch (eventName : string) (data : Data) (t : Table)
    : list call * outcome :=
  match t !! eventName with
  | None => ([], Returned t)
  | Some eventListeners =>
      if length eventListeners =? 0 then ([], Returned t)
      else dispatch_loop eventName eventListeners [] data t
  end.

(** What the owner of the bus does with it, one call after the other.
    An exception of a listener reaches the caller of [dispatch]; the
    bus stays as the listener left it. *)
Inductive request :=
| Subscribe (eventName : string) (l : Listener) (opts : option options)
| Unsubscribe (eventName : string) (l : Listener)
| Dispatch (eventName : string) (data : Data).

Fixpoint perform (reqs : list request) (t : Table) : list call * Table :=
  match reqs with
  | [] => ([], t)
  | Subscribe n l opts :: reqs' => perform reqs' (_on n l opts t)
  | Unsubscribe n l :: reqs' => perform reqs' (_off n l None t)
  | Dispatch n d :: reqs' =>
      let '(cs, o) := dispatch n d t in
      let '(cs', t') := perform reqs' (table_of o) in
      (cs ++ cs', t')
  end.
End dispatch.

Definition call_listener (c : call) : Listener :=
  match c with Call _ l _ _ _ => l end.

(** Every call of a listener, the nested ones included, in the order in
    which the listeners were entered. *)
Fixpoint calls_of (c : call) : list (string * Listener * Table) :=
  match c with
  | Call n l _ t inner => (n, l, t) :: flat_map calls_of inner
  end.

Definition all_calls (cs : list call) : list (string * Listener * Table) :=
  flat_map calls_of cs.

Definition is_call_of (eventName : string) (l : Listener)
    (r : string * Listener * Table) : bool :=
  bool_decide (r.1.1 = eventName) && bool_decide (r.1.2 = l).

(** How often [l] was called for [eventName]. *)
Definition invocations (eventName : string) (l : Listener) (cs : list call) : nat :=
  length (filter (λ r, is_call_of eventName l r = true) (all_calls cs)).

(** The entries of [eventName] that hold the listener [l], and how many
    they are. *)
Definition armed (eventName : string) (l : Listener) (t : Table) : list entry :=
  filter (λ e, listener e = l) (default [] (t !! eventName)).

Definition subscriptions (eventName : string) (l : Listener) (t : Table) : nat :=
  length (armed eventName l t).

(** No listener, whenever it runs, subscribes [l] for [eventName] or has
    [l] called for [eventName] by a dispatch of its own. *)
Definition quiet (eventName : string) (l : Listener) (run : behaviour) : Prop :=
  ∀ l' d t,
    armed eventName l (table_of (run l' d t).2) `sublist_of` armed eventName l t ∧
    invocations eventName l (run l' d t).1 = 0.

(** Whenever [l] was entered for [eventName], it had no entry left. *)
Definition removed_when_called (eventName : string) (l : Listener) (cs : list call) : Prop :=
  Forall (λ r, is_call_of eventName l r = true → subscriptions eventName l r.2 = 0)
         (all_calls cs).

(** Listeners that return at once and leave the bus alone. *)
Definition silent : behaviour := λ _ _ t, ([], Returned t).

(** Listener 1 dispatches the event ["e"] again from inside its call;
    all others are silent.  [depth] is the room left on the call stack. *)
Fixpoint reentrant (depth : nat) : behaviour :=
  λ l data t,
    match depth with
    | 0 => ([], Threw t)
    | S d => if decide (l = 1) then dispatch (reentrant d) "e" data t
             else ([], Returned t)
    end.

End EventBus.

(** ** Document.tsx: the page and editor-layer registries *)

Module Registry.

(** What a page or an editor layer registers: a DOM element or a layer
    object, known by its identity.  Objects are truthy. *)
Definition Ref := nat.

(** A JavaScript array with holes. *)
Abbreviation JsArray := (list (option Ref)).

(** [new Array(n)]: [n] holes. *)
Definition new_Array (n : nat) : JsArray := replicate n None.

(** [a[i] = v]: inside the array the slot is overwritten; past its end
    the array grows, with holes up to [i]. *)
Definition array_set (i : nat) (v : Ref) (a : JsArray) : JsArray :=
  if decide (i < length a) then <[i := Some v]> a
  else a ++ replicate (i - length a) None ++ [Some v].

(** [a.filter(Boolean)]: holes are skipped, objects are kept. *)
Definition filter_Boolean (a : JsArray) : list Ref := omap id a.

(** [pages.current], [annotationEditorLayers.current] and the state
    variable [canLoadAnnotations]. *)
Record state := State {
  pages : JsArray;
  annotationEditorLayers : JsArray;
  canLoadAnnotations : bool
}.

(** [useState(false)], and the two refs before a document is loaded. *)
Definition initial : state := State [] [] false.

(** The part of [onLoadSuccess] that allocates the registries. *)
Definition onLoadSuccess (numPages : nat) (st : state) : state :=
  State (new_Array numPages) (new_Array numPages) (canLoadAnnotations st).

Section handlers.
(** The value of the editing manager's resolver seen by the handlers:
    [None] while it is undefined. *)
Variable annotationEditorUiManager : option nat.

Definition registerPage (pageIndex : nat) (ref : Ref) (st : state) : state :=
  State (array_set pageIndex ref (pages st))
        (annotationEditorLayers st)
        (canLoadAnnotations st).

Definition registerAnnotationEditorLayer (pageIndex : nat) (ref : Ref) (st : state)
    : state :=
  let layers := array_set pageIndex ref (annotationEditorLayers st) in
  State (pages st) layers
        (bool_decide (is_Some annotationEditorUiManager) &&
         (0 <? length (pages st)) &&
         (length (pages st) =? length (filter_Boolean layers))).

(** The calls made by the mounted pages, in the order they arrive. *)
Inductive registration :=
| RegisterPage (pageIndex : nat) (ref : Ref)
| RegisterAnnotationEditorLayer (pageIndex : nat) (ref : Ref).

Definition register (st : state) (r : registration) : state :=
  match r with
  | RegisterPage i ref => registerPage i ref st
  | RegisterAnnotationEditorLayer i ref => registerAnnotationEditorLayer i ref st
  end.

Definition register_all (rs : list registration) (st : state) : state :=
  foldl register st rs.
End handlers.

Definition pageIndex_of (r : registration) : nat :=
  match r with RegisterPage i _ | RegisterAnnotationEditorLayer i _ => i end.

(** Slot [j] of a registry holds a reference. *)
Definition present (a : JsArray) (j : nat) : Prop := ∃ ref, a !! j = Some (Some ref).

(** The number of slots that hold a reference. *)
Definition count_present (a : JsArray) : nat := length (filter is_Some a).

(** Every page of the list mounts: the page registers itself as
    [pageRef j] and its editor layer as [layerRef j]. *)
Definition mount (pageRef layerRef : nat → Ref) (order : list nat) : list registration :=
  flat_map (λ j, [RegisterPage j (pageRef j);
                  RegisterAnnotationEditorLayer j (layerRef j)]) order.

End Registry.

(** ** What the component does that can be observed *)

Module Host.

(** The messages given to [warning(false, ...)]. *)
Inductive advisory :=
| UnnecessaryReload       (* the file prop changed but equals the previous one *)
| CrossOrigin             (* the message of [displayCORSWarning] *)
| Failure (message : string).  (* the text of an error, as [onSourceError]/[onLoadError] log it *)

Global Instance advisory_eq_dec : EqDecision advisory.
Proof. solve_decision. Defined.

Inductive event :=
| Warning (a : advisory)
| ConsoleError (message : string)
| OnSourceSuccess
| OnSourceError (error : string)
| OnLoadSuccess (pdf : nat)
| OnLoadError (error : string)
| SetIsSaveInProgress (b : bool)
| SaveDocument                                (* [pdf.saveDocument()] *)
| GetData                                     (* [pdf.getData()] *)
| DownloadBlob (data url filename : string)   (* [downloadManager.current.download] *)
| DownloadUrl (url filename : string).        (* [downloadManager.current.downloadUrl] *)

Global Instance event_eq_dec : EqDecision event.
Proof. solve_decision. Defined.

(** The callbacks by which a failure is reported to the host. *)
Definition is_error_callback (e : event) : bool :=
  match e with OnSourceError _ | OnLoadError _ => true | _ => false end.

End Host.

(** ** shared/hooks/useResolver.js *)

Module Resolver.

(** Modelled from the spec: the hook [useResolver] is not among the
    sources.  The spec gives its state as the tagged variant Pending,
    Resolved with a value, Rejected with an error, Absent, and its
    transitions as RESET to Absent, RESOLVE to Resolved, REJECT to
    Rejected, whatever the current variant. *)
Inductive ResolveState (T : Type) :=
| Pending
| Resolved (value : T)
| Rejected (error : string)
| Absent.
Arguments Pending {T}.
Arguments Resolved {T} value.
Arguments Rejected {T} error.
Arguments Absent {T}.

Inductive action (T : Type) :=
| RESET
| RESOLVE (value : T)
| REJECT (error : string).
Arguments RESET {T}.
Arguments RESOLVE {T} value.
Arguments REJECT {T} error.

Definition reducer {T} (st : ResolveState T) (a : action T) : ResolveState T :=
  match a with
  | RESET => Absent
  | RESOLVE v => Resolved v
  | REJECT e => Rejected e
  end.

(** The [value] field as [Document] reads it: [undefined] while there is
    no result, [false] after a failure, the result otherwise. *)
Inductive seen (T : Type) := IsUndefined | IsFalse | IsValue (v : T).
Arguments IsUndefined {T}.
Arguments IsFalse {T}.
Arguments IsValue {T} v.

Definition value {T} (st : ResolveState T) : seen T :=
  match st with
  | Pending | Absent => IsUndefined
  | Rejected _ => IsFalse
  | Resolved v => IsValue v
  end.

Definition error {T} (st : ResolveState T) : option string :=
  match st with Rejected e => Some e | _ => None end.

(** [Object.is] on two values of the field, given it on results. *)
Definition same_seen {T} (same : T → T → bool) (a b : seen T) : bool :=
  match a, b with
  | IsUndefined, IsUndefined | IsFalse, IsFalse => true
  | IsValue x, IsValue y => same x y
  | _, _ => false
  end.

End Resolver.

(** ** Document.tsx: from the file prop to the source *)

Module DocumentSource.
Import Host Resolver.

(** The keys of a parameter object that the component looks at, and the
    options passed through: an object, so a map from keys to values in
    which the order of the keys plays no part.  The values are given by
    their contents (the bytes of [data], the fields of the transport of
    [range]), which is what [dequal] compares. *)
Record params := Params {
  data : option string;
  range : option string;
  url : option string;
  others : gmap string string
}.

Global Instance params_eq_dec : EqDecision params.
Proof. solve_decision. Defined.

(** The values the [file] prop can take.  Objects carry their identity. *)
Inductive File :=
| Null
| Undefined
| Str (s : string)
| Num (n : nat)                            (* neither a string nor an object *)
| RangeTransport (id : nat) (transport : string)   (* instanceof PDFDataRangeTransport *)
| ArrayBuffer (id : nat) (bytes : string)
| Blob (id : nat) (bytes : string)
| Object (id : nat) (fields : params).

(** [!file] is false *)
Definition truthy (file : File) : bool :=
  match file with
  | Null | Undefined => false
  | Str s => negb (bool_decide (s = ""))
  | Num n => negb (n =? 0)
  | _ => true
  end.

(** [a === b] *)
Definition same (a b : File) : bool :=
  match a, b with
  | Null, Null | Undefined, Undefined => true
  | Str s, Str s' => bool_decide (s = s')
  | Num n, Num n' => n =? n'
  | RangeTransport i _, RangeTransport j _
  | ArrayBuffer i _, ArrayBuffer j _
  | Blob i _, Blob j _
  | Object i _, Object j _ => i =? j
  | _, _ => false
  end.

(** [dequal(a, b)]: equality of the contents, whatever the identities.
    The component calls it with a parameter object as [a]. *)
Definition dequal (a b : File) : bool :=
  match a, b with
  | Null, Null | Undefined, Undefined => true
  | Str s, Str s' => bool_decide (s = s')
  | Num n, Num n' => n =? n'
  | RangeTransport _ x, RangeTransport _ y
  | ArrayBuffer _ x, ArrayBuffer _ y
  | Blob _ x, Blob _ y => bool_decide (x = y)
  | Object _ p, Object _ q => bool_decide (p = q)
  | _, _ => false
  end.

Definition isParameterObject (file : File) : bool :=
  match file with
  | Object _ p =>
      bool_decide (is_Some (data p)) || bool_decide (is_Some (range p)) ||
      bool_decide (is_Some (url p))
  | _ => false
  end.

(** The helpers of shared/utils.js that [findDocumentSource] calls, and
    what they depend on in the host. *)
Record utils := Utils {
  isDataURI : string → bool;
  dataURItoByteString : string → string;
  isBrowser : bool;
  loadFromFile : string → option string;  (* the bytes of a blob, or a rejection *)
  cross_origin : bool
}.

(** Modelled from the spec: [displayCORSWarning] of shared/utils.js is
    not among the sources.  It is called without argument; the spec has
    it emit a non-fatal cross-origin advisory if the scheme differs from
    the host's origin conventions, which is the field [cross_origin]. *)
Definition displayCORSWarning (u : utils) : list event :=
  if cross_origin u then [Warning CrossOrigin] else [].

(** A resolved source: an object literal made by [findDocumentSource]
    ([origin = None]) or the file object itself ([origin = Some id]). *)
Record Source := Src { origin : option nat; fields : params }.

Inductive resolution :=
| Fulfilled (source : option Source)
| RejectedWith (error : string).

Definition findDocumentSource (u : utils) (file : File) : list event * resolution :=
  if negb (truthy file) then ([], Fulfilled None)
  else
    match file with
    | Str s =>
        if isDataURI u s
        then ([], Fulfilled (Some (Src None
                (Params (Some (dataURItoByteString u s)) None None ∅))))
        else (displayCORSWarning u,
              Fulfilled (Some (Src None (Params None None (Some s) ∅))))
    | RangeTransport _ transport =>
        ([], Fulfilled (Some (Src None (Params None (Some transport) None ∅))))
    | ArrayBuffer _ bytes =>
        ([], Fulfilled (Some (Src None (Params (Some bytes) None None ∅))))
    | Blob _ bytes =>
        if isBrowser u
        then match loadFromFile u bytes with
             | Some d => ([], Fulfilled (Some (Src None (Params (Some d) None None ∅))))
             | None => ([], RejectedWith "loadFromFile")
             end
        else ([], RejectedWith "Invalid parameter object: need either .data, .range or .url")
    | Object id p =>
        if isParameterObject file
        then match url p with
             | Some s =>
                 if isDataURI u s
                 then ([], Fulfilled (Some (Src None
                         (Params (Some (default (dataURItoByteString u s) (data p)))
                                 (range p) None (others p)))))
                 else (displayCORSWarning u, Fulfilled (Some (Src (Some id) p)))
             | None => ([], Fulfilled (Some (Src (Some id) p)))
             end
        else ([], RejectedWith "Invalid parameter object: need either .data, .range or .url")
    | Null | Undefined | Num _ =>
        ([], RejectedWith
               "Invalid parameter in file, need either Uint8Array, string or a parameter object")
    end.

(** [Object.is] on two resolved sources: an object literal is a new
    object each time. *)
Definition same_source (a b : option Source) : bool :=
  match a, b with
  | None, None => true
  | Some x, Some y =>
      match origin x, origin y with
      | Some i, Some j => i =? j
      | _, _ => false
      end
  | _, _ => false
  end.

Record state := State {
  file : option File;          (* the file prop of the last render, if any *)
  prevFile : option File;      (* [prevFile.current] *)
  sourceState : ResolveState (option Source);
  running : option resolution; (* the promise of [findDocumentSource], while
                                  it is neither settled nor cancelled *)
  log : list event
}.

Definition mounting : state := State None None Absent None [].

Definition emit (evs : list event) (st : state) : state :=
  State (file st) (prevFile st) (sourceState st) (running st) (log st ++ evs).

Definition onSourceError (st : state) : list event :=
  match error (sourceState st) with
  | None => []
  | Some e => [Warning (Failure e); OnSourceError e]
  end.

(** The effect on [source]. *)
Definition source_effect (st : state) : state :=
  match value (sourceState st) with
  | IsUndefined => st
  | IsFalse => emit (onSourceError st) st
  | IsValue _ => emit [OnSourceSuccess] st
  end.

(** [sourceDispatch(a)], the render that follows and, when [source] is
    another value than at the render before, its effect. *)
Definition sourceDispatch (a : action (option Source)) (st : state) : state :=
  let next := reducer (sourceState st) a in
  let st' := State (file st) (prevFile st) next (running st) (log st) in
  if same_seen same_source (value (sourceState st)) (value next) then st'
  else source_effect st'.

(** The effect on [file] that detects a changed but equal prop. *)
Definition detect_equal_file (f : File) (st : state) : state :=
  if truthy f &&
     negb (match prevFile st with Some f0 => same f f0 | None => false end) &&
     isParameterObject f
  then
    let warned :=
      if match prevFile st with Some f0 => dequal f f0 | None => false end
      then emit [Warning UnnecessaryReload] st else st in
    State (file warned) (Some f) (sourceState warned) (running warned) (log warned)
  else st.

Definition resetSource (st : state) : state := sourceDispatch RESET st.

(** The effect on [findDocumentSource]: the running promise is
    cancelled, a new one is started. *)
Definition start_resolution (u : utils) (f : File) (st : state) : state :=
  let '(evs, r) := findDocumentSource u f in
  State (file st) (prevFile st) (sourceState st) (Some r) (log st ++ evs).

(** The host renders [<Document file={f}>]: the effects whose
    dependencies hold [file] run when [f] is not the value of the last
    render, in the order of the component. *)
Definition render (u : utils) (f : File) (st : state) : state :=
  let changed := match file st with Some f0 => negb (same f f0) | None => true end in
  let st0 := State (Some f) (prevFile st) (sourceState st) (running st) (log st) in
  if changed
  then start_resolution u f (resetSource (detect_equal_file f st0))
  else st0.

(** The running promise settles. *)
Definition settle (st : state) : state :=
  let st0 := State (file st) (prevFile st) (sourceState st) None (log st) in
  match running st with
  | None => st
  | Some (Fulfilled s) => sourceDispatch (RESOLVE s) st0
  | Some (RejectedWith e) => sourceDispatch (REJECT e) st0
  end.

(** A host that is not on the local file system and in a browser; a
    data URI is a string that starts with [data:]. *)
Definition browser : utils :=
  Utils (λ s, bool_decide (String.prefix "data:" s = true)) (λ s, s) true (λ b, Some b) false.

End DocumentSource.

(** ** Document.tsx: from the source to the document *)

Module Loader.
Import Host Resolver.

(** A document handle, a source and an options object, by identity. *)
Definition Pdf := nat.

(** What [pdfjs.getDocument] returns: the engine's loading task.  The
    component reads its [destroyed] flag and calls [destroy()]; the
    engine settles its promise. *)
Record task := Task {
  documentInitParams : nat * option nat;   (* the source, and the options if any *)
  destroyed : bool;
  settled : bool
}.

Record state := State {
  mounted : bool;
  source : option nat;              (* [source] of the last render, if truthy *)
  options : option nat;
  pdfState : ResolveState Pdf;
  tasks : list task;                (* every loading task made so far *)
  loading : option nat;             (* the task that the cleanup of the
                                       last [loadDocument] will destroy *)
  log : list event
}.

Definition mounting : state := State true None None Absent [] None [].

Definition emit (evs : list event) (st : state) : state :=
  State (mounted st) (source st) (options st) (pdfState st) (tasks st) (loading st)
        (log st ++ evs).

Definition onLoadError (st : state) : list event :=
  match error (pdfState st) with
  | None => []
  | Some e => [Warning (Failure e); OnLoadError e]
  end.

(** The effect on [pdf]; of [onLoadSuccess] only the callback of the
    host is kept here. *)
Definition pdf_effect (st : state) : state :=
  match value (pdfState st) with
  | IsUndefined => st
  | IsFalse => emit (onLoadError st) st
  | IsValue pdf => emit [OnLoadSuccess pdf] st
  end.

(** [pdfDispatch(a)], the render that follows and, when [pdf] is
    another value than before, its effect.  React drops the updates of
    a component that is not mounted any more. *)
Definition pdfDispatch (a : action Pdf) (st : state) : state :=
  if mounted st then
    let next := reducer (pdfState st) a in
    let st' := State (mounted st) (source st) (options st) next (tasks st) (loading st)
                     (log st) in
    if same_seen Nat.eqb (value (pdfState st)) (value next) then st'
    else pdf_effect st'
  else st.

Definition resetDocument (st : state) : state := pdfDispatch RESET st.

(** [loadingTask.destroy()] *)
Definition destroy (id : nat) (ts : list task) : list task :=
  match ts !! id with
  | Some t => <[id := Task (documentInitParams t) true (settled t)]> ts
  | None => ts
  end.

(** The cleanup returned by [loadDocument]. *)
Definition cleanup (st : state) : state :=
  match loading st with
  | Some id => State (mounted st) (source st) (options st) (pdfState st)
                     (destroy id (tasks st)) None (log st)
  | None => st
  end.

Definition loadDocument (st : state) : state :=
  match source st with
  | None => st
  | Some src =>
      State (mounted st) (source st) (options st) (pdfState st)
            (tasks st ++ [Task (src, options st) false false])
            (Some (length (tasks st))) (log st)
  end.

(** How the engine settles the promise of a loading task. *)
Inductive settlement :=
| Fulfilled (pdf : Pdf)
| RejectedWith (error : string).

(** The callbacks that [loadDocument] puts on [loadingTask.promise]. *)
Definition on_settled (t : task) (o : settlement) (st : state) : state :=
  match o with
  | Fulfilled nextPdf => pdfDispatch (RESOLVE nextPdf) st
  | RejectedWith error =>
      if destroyed t then st else pdfDispatch (REJECT error) st
  end.

Inductive step :=
| Render (src : option nat) (opts : option nat)  (* a render with these values of
                                                    [source] and [options] *)
| Settle (id : nat) (o : settlement)             (* the engine settles a task *)
| Unmount.

(** [useEffect(resetDocument, [pdfDispatch, source])] and
    [useEffect(loadDocument, [options, pdfDispatch, source])]. *)
Definition do_step (st : state) (s : step) : state :=
  match s with
  | Render src opts =>
      let source_changed := negb (bool_decide (src = source st)) in
      let options_changed := negb (bool_decide (opts = options st)) in
      let st0 := State (mounted st) src opts (pdfState st) (tasks st) (loading st)
                       (log st) in
      let st1 := if source_changed || options_changed then cleanup st0 else st0 in
      let st2 := if source_changed then resetDocument st1 else st1 in
      if source_changed || options_changed then loadDocument st2 else st2
  | Settle id o =>
      match tasks st !! id with
      | Some t =>
          if settled t then st
          else
            let st0 := State (mounted st) (source st) (options st) (pdfState st)
                             (<[id := Task (documentInitParams t) (destroyed t) true]>
                                (tasks st))
                             (loading st) (log st) in
            on_settled t o st0
      | None => st
      end
  | Unmount =>
      let st0 := cleanup st in
      State false (source st0) (options st0) (pdfState st0) (tasks st0) (loading st0)
            (log st0)
  end.

Definition run (steps : list step) (st : state) : state := foldl do_step st steps.

End Loader.

(** ** Document.tsx: download and save *)

Module Download.
Import Host.

(** An awaited call returns a value or throws. *)
Inductive result (A : Type) :=
| Ok (a : A)
| Throws (message : string).
Arguments Ok {A} a.
Arguments Throws {A} message.

(** The document handle and the download manager, as far as the
    handlers use them. *)
Record env := Env {
  saveDocument : result string;
  getData : result string;
  download_blob : string → string → string → result unit;  (* data, url, filename *)
  downloadUrl : string → string → result unit;             (* url, filename *)
  annotationStorage_size : nat
}.

(** [downloadFileName || 'annotated.pdf'] *)
Definition url_of (downloadFileName : option string) : string :=
  match downloadFileName with
  | Some name => if bool_decide (name = "") then "annotated.pdf" else name
  | None => "annotated.pdf"
  end.

Section handlers.
Variable e : env.
Variable downloadFileName : option string.

Definition url : string := url_of downloadFileName.
Definition filename : string := url.

(** The [catch] block of [download]. *)
Definition download_catch (done : list event) : list event * result unit :=
  (done ++ [DownloadUrl url filename], downloadUrl e url filename).

Definition download : list event * result unit :=
  match getData e with
  | Ok data =>
      match download_blob e data url filename with
      | Ok tt => ([GetData; DownloadBlob data url filename], Ok tt)
      | Throws _ => download_catch [GetData; DownloadBlob data url filename]
      end
  | Throws _ => download_catch [GetData]
  end.

(** [saveWithAnnotations] up to its first [await]: [None] when the
    guard returns at once. *)
Definition saveWithAnnotations_start (isSaveInProgress : bool) : option (list event) :=
  if isSaveInProgress then None
  else Some [SetIsSaveInProgress true; SaveDocument].

(** The [catch] block of [saveWithAnnotations]. *)
Definition save_catch (reason : string) : list event * result unit :=
  let '(evs, r) := download in
  (ConsoleError ("Error when saving the document: " +:+ reason) :: evs, r).

(** [saveWithAnnotations] from the moment [pdf.saveDocument()] has
    settled, through [finally]. *)
Definition saveWithAnnotations_resume (saved : result string) : list event * result unit :=
  let '(evs, r) :=
    match saved with
    | Ok data =>
        match download_blob e data url filename with
        | Ok tt => ([DownloadBlob data url filename], Ok tt)
        | Throws reason =>
            let '(evs, r) := save_catch reason in
            (DownloadBlob data url filename :: evs, r)
        end
    | Throws reason => save_catch reason
    end in
  (evs ++ [SetIsSaveInProgress false], r).

(** One call of [saveWithAnnotations], run to its end. *)
Definition saveWithAnnotations (isSaveInProgress : bool) : list event * result unit :=
  match saveWithAnnotations_start isSaveInProgress with
  | None => ([], Ok tt)
  | Some evs =>
      let '(evs', r) := saveWithAnnotations_resume (saveDocument e) in
      (evs ++ evs', r)
  end.

(** [downloadWithAnnotations], installed in [eventsRef.current]; the
    promise of the handler it calls is dropped. *)
Definition downloadWithAnnotations (isSaveInProgress : bool) : list event :=
  if 0 <? annotationStorage_size e then (saveWithAnnotations isSaveInProgress).1
  else download.1.
End handlers.

(** The calls that the handlers await. *)
Definition is_awaited (ev : event) : bool :=
  match ev with
  | SaveDocument | GetData | DownloadBlob _ _ _ | DownloadUrl _ _ => true
  | _ => false
  end.

(** What a handler does next, up to the call at which it is suspended
    or to its end, and what it has left to do after that. *)
Fixpoint until_await (evs : list event) : list event * list event :=
  match evs with
  | [] => ([], [])
  | ev :: rest =>
      if is_awaited ev then ([ev], rest)
      else let '(now, later) := until_await rest in (ev :: now, later)
  end.

(** The state variable [isSaveInProgress] and the handler that
    [eventsRef.current] holds, over time.  The handler is a closure: it
    reads the value that [isSaveInProgress] had at the render whose
    effect installed it. *)
Record state := State {
  isSaveInProgress : bool;   (* the state variable, updates included *)
  closed_over : bool;        (* its value in the installed handler *)
  in_flight : nat;           (* calls of [pdf.saveDocument()] not yet settled *)
  resumed : list (list event);  (* the calls of [saveWithAnnotations] that are past
                                   [saveDocument] and suspended at a later await:
                                   what each has left to do *)
  log : list event
}.

Definition initial : state := State false false 0 [] [].

(** The effect of the calls of [setIsSaveInProgress] in a trace. *)
Definition last_set (evs : list event) (current : bool) : bool :=
  foldl (λ b ev, match ev with SetIsSaveInProgress b' => b' | _ => b end) current evs.

Inductive step :=
| Invoke             (* the host calls [eventsRef.current.downloadWithAnnotations()] *)
| Commit             (* React renders and [enableDownload] installs new handlers *)
| Finish (saved : result string)  (* a pending [pdf.saveDocument()] settles: its call
                                     of [saveWithAnnotations] runs on to its next await *)
| Resume (k : nat).  (* the call awaited by the [k]-th suspended call settles: it
                        runs on to its next await, or to its end *)

Definition do_step (e : env) (downloadFileName : option string) (st : state) (s : step)
    : state :=
  match s with
  | Invoke =>
      if 0 <? annotationStorage_size e then
        match saveWithAnnotations_start (closed_over st) with
        | None => st
        | Some evs =>
            State (last_set evs (isSaveInProgress st)) (closed_over st)
                  (S (in_flight st)) (resumed st) (log st ++ evs)
        end
      else
        State (isSaveInProgress st) (closed_over st) (in_flight st) (resumed st)
              (log st ++ (download e downloadFileName).1)
  | Commit =>
      State (isSaveInProgress st) (isSaveInProgress st) (in_flight st) (resumed st)
            (log st)
  | Finish saved =>
      match in_flight st with
      | 0 => st
      | S n =>
          let '(now, later) :=
            until_await (saveWithAnnotations_resume e downloadFileName saved).1 in
          State (last_set now (isSaveInProgress st)) (closed_over st) n
                (match later with [] => resumed st | _ => resumed st ++ [later] end)
                (log st ++ now)
      end
  | Resume k =>
      match resumed st !! k with
      | None => st
      | Some evs =>
          let '(now, later) := until_await evs in
          State (last_set now (isSaveInProgress st)) (closed_over st) (in_flight st)
                (match later with
                 | [] => delete k (resumed st)
                 | _ => <[k := later]> (resumed st)
                 end)
                (log st ++ now)
      end
  end.

Definition run (e : env) (downloadFileName : option string) (steps : list step)
    (st : state) : state :=
  foldl (do_step e downloadFileName) st steps.

(** A document with one edit whose [saveDocument] fails, and a download
    manager that works. *)
Definition failing_save : env :=
  Env (Throws "worker terminated") (Ok "%PDF") (λ _ _ _, Ok tt) (λ _ _, Ok tt) 1.

Definition is_sink_call (ev : event) : bool :=
  match ev with DownloadBlob _ _ _ | DownloadUrl _ _ => true | _ => false end.

(** A call of the download manager, made for [u] and [f]. *)
Definition sink_call_for (u f : string) (ev : event) : Prop :=
  match ev with
  | DownloadBlob _ u' f' | DownloadUrl u' f' => u' = u ∧ f' = f
  | _ => True
  end.

End Download.

(** ** Document.tsx: the viewer and the page shown *)

Module Navigation.
Import Registry.

(** What [scrollPageIntoView] does to the outside. *)
Inductive effect :=
| ItemClick (dest : nat) (pageIndex pageNumber : Z)   (* [onItemClick({dest, pageIndex, pageNumber})] *)
| ScrollIntoView (page : Ref)                          (* [page.scrollIntoView()] *)
| LinkWarning (pageNumber : Z).                        (* the warning about the page not found *)

(** The argument of [scrollPageIntoView]; [pageIndex] may be missing. *)
Record ScrollPageIntoViewArgs := Args {
  dest : nat;
  pageNumber : Z;
  pageIndex : option Z
}.

(** The fields of [Viewer]; of [onItemClick] only whether it is given. *)
Record viewer := Viewer {
  currentPageNumber : Z;
  onItemClick : bool
}.

(** [a[i]] for a number [i]: a negative index holds nothing. *)
Definition at_index (a : JsArray) (i : Z) : option Ref :=
  if decide (0 ≤ i)%Z then mjoin (a !! Z.to_nat i) else None.

Definition scrollPageIntoView (v : viewer) (pages : JsArray) (args : ScrollPageIntoViewArgs)
    : viewer * list effect :=
  let pageIndex := default (pageNumber args - 1)%Z (pageIndex args) in
  let v' := Viewer 1 (onItemClick v) in
  if onItemClick v then (v', [ItemClick (dest args) pageIndex (pageNumber args)])
  else
    match at_index pages pageIndex with
    | Some page => (v', [ScrollIntoView page])
    | None => (v', [LinkWarning (pageNumber args)])
    end.

Section scroll.
(** [isPageInVew] of shared/utils.js, given the scroll position and the
    slot of the registry, which may be a hole. *)
Variable isPageInVew : Z → option Ref → bool.
Variable scrollTop : Z.

(** The loop of [detectCurrentPageOnScroll] from index [i] on: the
    argument of [setCurrentPage], if it is called. *)
Fixpoint first_in_view (i : nat) (pages : JsArray) : option nat :=
  match pages with
  | [] => None
  | page :: rest =>
      if isPageInVew scrollTop page then Some (i + 1)
      else first_in_view (S i) rest
  end.

(** The body of the debounced handler; an empty registry is left at the
    guard. *)
Definition detectCurrentPageOnScroll (pages : JsArray) : option nat :=
  if length pages =? 0 then None else first_in_view 0 pages.
End scroll.

End Navigation.

(** ** AnnotationEditorLayer.tsx: the editor layer of a page *)

Module EditorLayer.
Import Registry.

(** The values that the effect of the component depends on, as the
    condition of the effect sees them: given or not. *)
Record deps := Deps {
  annotationEditorUiManager : bool;
  viewport : bool;
  annotationLayer : bool;
  textLayerRef : bool;
  drawLayer : bool
}.

Inductive effect :=
| Render (layer : Ref)                       (* [newAnnotationEditorLayer.render(...)] *)
| Register (pageIndex : nat) (layer : Ref)   (* [registerAnnotationEditorLayer(pageIndex, layer)] *)
| Update (layer : Ref).                      (* [annotationEditorLayer.update(...)] *)

Section component.
Variable pageIndex : nat.
(** Whether the document context gives [registerAnnotationEditorLayer]. *)
Variable registerAnnotationEditorLayer : bool.

(** [getAnnotationEditorLayer], [created] being the new layer object:
    the state variable [annotationEditorLayer] after it, and what it did. *)
Definition getAnnotationEditorLayer (created : Ref) : option Ref * list effect :=
  (Some created,
   Render created :: if registerAnnotationEditorLayer then [Register pageIndex created] else []).

(** One run of the effect, in a render whose state variable is
    [annotationEditorLayer]. *)
Definition run_effect (annotationEditorLayer : option Ref) (d : deps) (created : Ref)
    : option Ref * list effect :=
  if annotationEditorUiManager d && viewport d && annotationLayer d && textLayerRef d &&
     drawLayer d
  then match annotationEditorLayer with
       | Some layer => (annotationEditorLayer, [Update layer])
       | None => getAnnotationEditorLayer created
       end
  else (annotationEditorLayer, []).

(** The runs of the effect over the life of the component, each in a
    render that has the state set by the runs before. *)
Fixpoint run_effects (annotationEditorLayer : option Ref) (runs : list (deps * Ref))
    : option Ref * list effect :=
  match runs with
  | [] => (annotationEditorLayer, [])
  | (d, created) :: rest =>
      let '(layer, evs) := run_effect annotationEditorLayer d created in
      let '(layer', evs') := run_effects layer rest in
      (layer', evs ++ evs')
  end.
End component.

End EditorLayer.

(** * Properties *)

(** ** The event bus *)

Section EventBusFacts.
Import EventBus.

Definition internal_first (subscribed : list entry) : list Listener :=
  map listener (filter (λ e, external e = false) subscribed) ++
  map listener (filter (λ e, external e = true) subscribed).

Lemma dispatch_external_calls run n ext d t :
  map call_listener (dispatch_external run n ext d t).1 `prefix_of` ext ∧
  ∀ t', (dispatch_external run n ext d t).2 = Returned t' →
        map call_listener (dispatch_external run n ext d t).1 = ext.
Proof.
  revert t. induction ext as [|l ext IH]; intros t; simpl.
  - split; [done | done].
  - unfold invoke. destruct (run l d t) as [inner [t1|t1]]; simpl.
    + specialize (IH t1).
      destruct (dispatch_external run n ext d t1) as [cs o]; simpl in *.
      destruct IH as [Hp He]. split.
      * by apply prefix_cons.
      * intros t' ->. f_equal. by eapply He.
    + split; [|done]. apply prefix_cons, prefix_nil.
Qed.

Lemma dispatch_loop_calls run n snapshot ext d t :
  let expected := map listener (filter (λ e, external e = false) snapshot) ++
                  ext ++ map listener (filter (λ e, external e = true) snapshot) in
  map call_listener (dispatch_loop run n snapshot ext d t).1 `prefix_of` expected ∧
  ∀ t', (dispatch_loop run n snapshot ext d t).2 = Returned t' →
        map call_listener (dispatch_loop run n snapshot ext d t).1 = expected.
Proof.
  revert ext t. induction snapshot as [|e rest IH]; intros ext t; simpl.
  - rewrite app_nil_r. apply dispatch_external_calls.
  - set (t1 := if once e then _ else _). clearbody t1.
    destruct (external e) eqn:Hext.
    + rewrite filter_cons_False by (rewrite Hext; done).
      rewrite filter_cons_True by done. simpl.
      specialize (IH (ext ++ [listener e]) t1). simpl in IH.
      rewrite <- app_assoc in IH. apply IH.
    + rewrite filter_cons_True by done.
      rewrite filter_cons_False by (rewrite Hext; done). simpl.
      unfold invoke. destruct (run (listener e) d t1) as [inner [t2|t2]]; simpl.
      * specialize (IH ext t2). simpl in IH.
        destruct (dispatch_loop run n rest ext d t2) as [cs o]; simpl in *.
        destruct IH as [Hp He]. split.
        -- by apply prefix_cons.
        -- intros t' ->. f_equal. by eapply He.
      * split; [|done]. apply prefix_cons, prefix_nil.
Qed.

(** The array of an event name is in subscription order: [_on] puts the
    new entry at its end. *)
Lemma _on_appends eventName l opts (t : Table) :
  _on eventName l opts t !! eventName =
  Some (default [] (t !! eventName) ++
        [Entry l (is_true (opts ≫= opt_external)) (is_true (opts ≫= opt_once))]).
Proof. unfold _on. by rewrite lookup_insert_eq. Qed.

(** Whatever the listeners do, and also when one of them throws, the
    calls made by one [dispatch] are an initial part of: the internal
    listeners in subscription order, then the external ones. *)
Lemma dispatch_calls_prefix run eventName data t :
  map call_listener (dispatch run eventName data t).1
    `prefix_of` internal_first (default [] (t !! eventName)).
Proof.
  unfold dispatch, internal_first.
  destruct (t !! eventName) as [els|]; simpl; [|apply prefix_nil].
  destruct els as [|e els]; [apply prefix_nil|].
  change (length (e :: els) =? 0) with false. cbv iota.
  pose proof (dispatch_loop_calls run eventName (e :: els) [] data t) as [Hp _].
  exact Hp.
Qed.

(** When no listener throws, [dispatch] returns. *)
Lemma dispatch_returns run eventName data t :
  (∀ l d t0, ∃ t1, (run l d t0).2 = Returned t1) →
  ∃ t', (dispatch run eventName data t).2 = Returned t'.
Proof.
  intros Hrun.
  assert (∀ ext t0, ∃ t', (dispatch_external run eventName ext data t0).2 = Returned t')
    as Hext.
  { induction ext as [|l ext IH]; intros t0; simpl; [by eexists|].
    unfold invoke. destruct (Hrun l data t0) as [t1 H1].
    destruct (run l data t0) as [inner o]. simpl in H1. subst o.
    destruct (IH t1) as [t' Ht'].
    destruct (dispatch_external run eventName ext data t1) as [cs o']. by exists t'. }
  assert (∀ snapshot ext t0,
            ∃ t', (dispatch_loop run eventName snapshot ext data t0).2 = Returned t')
    as Hloop.
  { induction snapshot as [|e rest IH]; intros ext t0; simpl; [apply Hext|].
    set (t1 := if once e then _ else _). clearbody t1.
    destruct (external e); [apply IH|].
    unfold invoke. destruct (Hrun (listener e) data t1) as [t2 H2].
    destruct (run (listener e) data t1) as [inner o]. simpl in H2. subst o.
    destruct (IH ext t2) as [t' Ht'].
    destruct (dispatch_loop run eventName rest ext data t2) as [cs o']. by exists t'. }
  unfold dispatch. destruct (t !! eventName) as [els|]; [|by eexists].
  destruct (length els =? 0); [by eexists | apply Hloop].
Qed.

(** C1: a [dispatch] that returns has called the listeners subscribed
    for the name without the external flag, in subscription order, and
    after them those subscribed with the external flag, in subscription
    order; this holds whatever the listeners do to the bus meanwhile. *)
Theorem dispatch_internal_then_external run eventName data t cs t' :
  dispatch run eventName data t = (cs, Returned t') →
  map call_listener cs = internal_first (default [] (t !! eventName)).
Proof.
  unfold dispatch, internal_first.
  destruct (t !! eventName) as [els|]; simpl.
  - destruct els as [|e els].
    + simpl. by intros [= <- _].
    + change (length (e :: els) =? 0) with false. cbv iota.
      intros Hd.
      pose proof (dispatch_loop_calls run eventName (e :: els) [] data t) as [_ He].
      rewrite Hd in He. simpl in He. by eapply He.
  - by intros [= <- _].
Qed.

(** The bus of the example: L1 (internal), L2 (external), L3 (internal),
    subscribed in that order for one event name. *)
Definition L1_L2_L3 : Table :=
  _on "pagerendered" 3 None
    (on "pagerendered" 2 None
      (_on "pagerendered" 1 None ∅)).

Lemma dispatch_internal_then_external_witness :
  map call_listener (dispatch silent "pagerendered" 0 L1_L2_L3).1 = [1; 3; 2].
Proof.
  apply (dispatch_internal_then_external silent "pagerendered" 0 L1_L2_L3 _ L1_L2_L3).
  vm_compute. reflexivity.
Defined.

Lemma Forall_sublist_of {A} (P : A → Prop) (l1 l2 : list A) :
  l1 `sublist_of` l2 → Forall P l2 → Forall P l1.
Proof.
  intros Hs HF. apply Forall_forall. intros x Hx.
  eapply Forall_forall; [exact HF|]. by eapply sublist_subseteq.
Qed.

Section once.
Variables (name : string) (l : Listener).

Lemma invocations_cons n l' d t inner cs :
  invocations name l (Call n l' d t inner :: cs) =
  (if is_call_of name l (n, l', t) then 1 else 0) +
  invocations name l inner + invocations name l cs.
Proof.
  unfold invocations, all_calls. simpl. rewrite filter_cons, filter_app.
  destruct (is_call_of name l (n, l', t)) eqn:E.
  - rewrite decide_True by done. simpl. rewrite length_app. lia.
  - rewrite decide_False by done. rewrite length_app. lia.
Qed.

Lemma invocations_app cs1 cs2 :
  invocations name l (cs1 ++ cs2) = invocations name l cs1 + invocations name l cs2.
Proof.
  unfold invocations, all_calls. by rewrite flat_map_app, filter_app, length_app.
Qed.

Lemma removed_when_called_none cs :
  invocations name l cs = 0 → removed_when_called name l cs.
Proof.
  unfold invocations, removed_when_called. intros H0.
  apply Forall_forall. intros r Hr Hc. exfalso.
  apply nil_length_inv in H0.
  eapply (filter_nil_not_elem_of _ _ r); eauto.
Qed.

Lemma removed_when_called_cons n l' d t inner cs :
  (is_call_of name l (n, l', t) = true → subscriptions name l t = 0) →
  removed_when_called name l inner →
  removed_when_called name l cs →
  removed_when_called name l (Call n l' d t inner :: cs).
Proof.
  unfold removed_when_called, all_calls. simpl. intros H1 H2 H3.
  constructor; [done|]. by apply Forall_app.
Qed.

Lemma removed_when_called_app cs1 cs2 :
  removed_when_called name l cs1 → removed_when_called name l cs2 →
  removed_when_called name l (cs1 ++ cs2).
Proof.
  unfold removed_when_called, all_calls. rewrite flat_map_app.
  intros. by apply Forall_app.
Qed.

Lemma filter_remove_first l' els :
  filter (λ e, listener e = l) (remove_first l' els) =
  if decide (l' = l) then tail (filter (λ e, listener e = l) els)
  else filter (λ e, listener e = l) els.
Proof.
  induction els as [|e els IH]; simpl.
  - by destruct (decide (l' = l)).
  - destruct (decide (listener e = l')) as [He|He].
    + destruct (decide (l' = l)) as [->|Hl].
      * by rewrite filter_cons, decide_True.
      * rewrite filter_cons, decide_False; [done | congruence].
    + rewrite !filter_cons. rewrite IH.
      destruct (decide (l' = l)) as [->|Hl].
      * destruct (decide (listener e = l)); [congruence | done].
      * by destruct (decide (listener e = l)).
Qed.

Lemma armed_off_other n l' o t :
  n ≠ name → armed name l (_off n l' o t) = armed name l t.
Proof.
  intros Hn. unfold armed, _off. destruct (t !! n); [|done].
  by rewrite lookup_insert_ne.
Qed.

Lemma armed_off_same l' o t :
  armed name l (_off name l' o t) =
  if decide (l' = l) then tail (armed name l t) else armed name l t.
Proof.
  unfold armed, _off. destruct (t !! name) as [els|] eqn:E.
  - rewrite lookup_insert_eq. simpl. apply filter_remove_first.
  - rewrite E. simpl. by destruct (decide (l' = l)).
Qed.

Lemma armed_off_sublist n l' o t :
  armed name l (_off n l' o t) `sublist_of` armed name l t.
Proof.
  destruct (decide (n = name)) as [->|Hn].
  - rewrite armed_off_same. destruct (decide (l' = l)); [|done].
    destruct (armed name l t); [done|]. simpl. by apply sublist_cons.
  - by rewrite armed_off_other.
Qed.

Lemma armed_on n l' opts t :
  (n = name → l' ≠ l) → armed name l (_on n l' opts t) = armed name l t.
Proof.
  intros Hne. unfold armed, _on. destruct (decide (n = name)) as [->|Hn].
  - rewrite lookup_insert_eq. simpl. rewrite filter_app, filter_cons_False, filter_nil.
    + by rewrite app_nil_r.
    + simpl. by apply Hne.
  - by rewrite lookup_insert_ne.
Qed.

Variable run : behaviour.
Hypothesis run_quiet : quiet name l run.

Lemma is_call_of_other_name n l' (t : Table) :
  n ≠ name → is_call_of name l (n, l', t) = false.
Proof. intros Hn. unfold is_call_of. simpl. by rewrite bool_decide_eq_false_2. Qed.

Lemma is_call_of_other_listener n l' (t : Table) :
  l' ≠ l → is_call_of name l (n, l', t) = false.
Proof.
  intros Hl. unfold is_call_of. simpl.
  rewrite (bool_decide_eq_false_2 (l' = l)) by done. apply andb_false_r.
Qed.

Lemma is_call_of_same (t : Table) : is_call_of name l (name, l, t) = true.
Proof. unfold is_call_of. simpl. by rewrite !bool_decide_eq_true_2. Qed.

(** Dispatches of other event names. *)
Lemma dispatch_external_other n ext d t :
  n ≠ name →
  armed name l (table_of (dispatch_external run n ext d t).2)
    `sublist_of` armed name l t ∧
  invocations name l (dispatch_external run n ext d t).1 = 0.
Proof.
  intros Hn. revert t. induction ext as [|l' ext IH]; intros t; simpl.
  - done.
  - unfold invoke. destruct (run_quiet l' d t) as [Hs Hi].
    destruct (run l' d t) as [inner [t1|t1]]; simpl in *.
    + destruct (IH t1) as [Hs1 Hi1].
      destruct (dispatch_external run n ext d t1) as [cs o]; simpl in *.
      rewrite invocations_cons, is_call_of_other_name by done.
      split; [by etrans | lia].
    + rewrite invocations_cons, is_call_of_other_name by done.
      split; [done | by rewrite Hi].
Qed.

Lemma dispatch_loop_other n snapshot ext d t :
  n ≠ name →
  armed name l (table_of (dispatch_loop run n snapshot ext d t).2)
    `sublist_of` armed name l t ∧
  invocations name l (dispatch_loop run n snapshot ext d t).1 = 0.
Proof.
  intros Hn. revert ext t. induction snapshot as [|e rest IH]; intros ext t; simpl.
  - by apply dispatch_external_other.
  - set (t1 := if once e then _ else _).
    assert (armed name l t1 = armed name l t) as Ht1.
    { subst t1. destruct (once e); [|done]. by apply armed_off_other. }
    clearbody t1. rewrite <- Ht1. clear Ht1 t.
    destruct (external e); [apply IH|].
    unfold invoke. destruct (run_quiet (listener e) d t1) as [Hs Hi].
    destruct (run (listener e) d t1) as [inner [t2|t2]]; simpl in *.
    + destruct (IH ext t2) as [Hs1 Hi1].
      destruct (dispatch_loop run n rest ext d t2) as [cs o]; simpl in *.
      rewrite invocations_cons, is_call_of_other_name by done.
      split; [by etrans | lia].
    + rewrite invocations_cons, is_call_of_other_name by done.
      split; [done | by rewrite Hi].
Qed.

(** The second loop of a dispatch of [name]: by then [l] has no entry. *)
Lemma dispatch_external_same ext d t :
  armed name l t = [] →
  armed name l (table_of (dispatch_external run name ext d t).2) = [] ∧
  invocations name l (dispatch_external run name ext d t).1
    ≤ length (filter (λ x, x = l) ext) ∧
  removed_when_called name l (dispatch_external run name ext d t).1.
Proof.
  revert t. induction ext as [|l' ext IH]; intros t Ha; simpl.
  - split; [done|]. split; [done|]. by apply removed_when_called_none.
  - unfold invoke. destruct (run_quiet l' d t) as [Hs Hi].
    rewrite Ha in Hs. apply sublist_nil_r in Hs.
    assert (invocations name l [] = 0) as Hnil by done.
    assert ((if is_call_of name l (name, l', t) then 1 else 0)
            ≤ length (filter (λ x, x = l) [l'])) as Hhead.
    { rewrite filter_cons. destruct (decide (l' = l)) as [->|Hl]; simpl.
      - destruct (is_call_of name l (name, l, t)); lia.
      - rewrite is_call_of_other_listener by done. lia. }
    assert (is_call_of name l (name, l', t) = true → subscriptions name l t = 0)
      as Hsub by (intros _; unfold subscriptions; by rewrite Ha).
    change (l' :: ext) with ([l'] ++ ext). rewrite filter_app, length_app.
    destruct (run l' d t) as [inner [t1|t1]]; simpl in *.
    + destruct (IH t1 Hs) as (Ha1 & Hi1 & Hr1).
      destruct (dispatch_external run name ext d t1) as [cs o]; simpl in *.
      rewrite invocations_cons. split; [done|]. split; [lia|].
      apply removed_when_called_cons; [done| |done].
      by apply removed_when_called_none.
    + rewrite invocations_cons, Hnil. split; [done|]. split; [lia|].
      apply removed_when_called_cons; [done| |].
      * by apply removed_when_called_none.
      * by apply removed_when_called_none.
Qed.

(** The first loop of a dispatch of [name]: [l] is still to come at
    most once, in the copy or among the deferred external listeners. *)
Lemma dispatch_loop_same snapshot ext d t :
  Forall (λ e, once e = true) (filter (λ e, listener e = l) snapshot) →
  length (filter (λ e, listener e = l) snapshot) +
    length (filter (λ x, x = l) ext) ≤ 1 →
  length (armed name l t) ≤ length (filter (λ e, listener e = l) snapshot) →
  armed name l (table_of (dispatch_loop run name snapshot ext d t).2)
    `sublist_of` armed name l t ∧
  length (armed name l (table_of (dispatch_loop run name snapshot ext d t).2)) +
    invocations name l (dispatch_loop run name snapshot ext d t).1
    ≤ length (filter (λ e, listener e = l) snapshot) +
      length (filter (λ x, x = l) ext) ∧
  removed_when_called name l (dispatch_loop run name snapshot ext d t).1.
Proof.
  revert ext t.
  induction snapshot as [|e rest IH]; intros ext t Honce Hone Hlen; simpl.
  - rewrite filter_nil in *. simpl in *.
    assert (armed name l t = []) as Ha by (apply nil_length_inv; lia).
    destruct (dispatch_external_same ext d t Ha) as (Ha' & Hi & Hr).
    rewrite Ha', Ha. simpl. split; [done|]. split; [lia | done].
  - rewrite filter_cons in Honce, Hone, Hlen. rewrite filter_cons.
    destruct (decide (listener e = l)) as [He|He].
    + (* the entry of [l]: it is spliced out before anything is called *)
      apply Forall_cons in Honce as [Hon Honce]. rewrite Hon.
      simpl in Hone, Hlen. rewrite He.
      set (t1 := _off name l None t).
      assert (armed name l t1 = []) as Ht1.
      { subst t1. rewrite armed_off_same, decide_True by done.
        destruct (armed name l t) as [|x [|y a]]; simpl in *; [done|done|lia]. }
      assert (length (filter (λ e, listener e = l) rest) = 0) as Hq by lia.
      assert (length (filter (λ x, x = l) ext) = 0) as Hp by lia.
      destruct (external e).
      * destruct (IH (ext ++ [l]) t1) as (Hs & Hk & Hr); [done| |rewrite Ht1; simpl; lia|].
        { rewrite filter_app, length_app, filter_cons, decide_True by done. simpl. lia. }
        rewrite Ht1 in Hs. apply sublist_nil_r in Hs.
        rewrite filter_app, length_app, filter_cons, decide_True in Hk by done.
        simpl in Hk. rewrite Hs in *. simpl in *.
        split; [apply sublist_nil_l|]. split; [lia | done].
      * unfold invoke. destruct (run_quiet l d t1) as [Hs Hi].
        rewrite Ht1 in Hs. apply sublist_nil_r in Hs.
        assert (is_call_of name l (name, l, t1) = true → subscriptions name l t1 = 0)
          as Hsub by (intros _; unfold subscriptions; by rewrite Ht1).
        destruct (run l d t1) as [inner [t2|t2]]; simpl in *.
        -- destruct (IH ext t2) as (Hs2 & Hk2 & Hr2); [done|lia|rewrite Hs; simpl; lia|].
           destruct (dispatch_loop run name rest ext d t2) as [cs o]; simpl in *.
           rewrite Hs in Hs2. apply sublist_nil_r in Hs2. rewrite Hs2 in *.
           rewrite invocations_cons, is_call_of_same. simpl in *.
           split; [apply sublist_nil_l|]. split; [lia|].
           apply removed_when_called_cons; [done| |done].
           by apply removed_when_called_none.
        -- rewrite Hs. rewrite invocations_cons, is_call_of_same. simpl.
           assert (invocations name l [] = 0) as -> by done.
           split; [apply sublist_nil_l|]. split; [lia|].
           apply removed_when_called_cons; [done| |];
             by apply removed_when_called_none.
    + (* the entry of another listener *)
      set (t1 := if once e then _ else _).
      assert (armed name l t1 = armed name l t) as Ht1.
      { subst t1. destruct (once e); [|done].
        by rewrite armed_off_same, decide_False. }
      clearbody t1. rewrite <- Ht1 in *. clear Ht1 t.
      destruct (external e).
      * destruct (IH (ext ++ [listener e]) t1) as (Hs & Hk & Hr); [done| |done|].
        { rewrite filter_app, length_app, filter_cons, decide_False by done. simpl. lia. }
        rewrite filter_app, length_app, filter_cons, decide_False in Hk by done.
        simpl in Hk. split; [done|]. split; [lia | done].
      * unfold invoke. destruct (run_quiet (listener e) d t1) as [Hs Hi].
        pose proof (sublist_length _ _ Hs) as Hl.
        destruct (run (listener e) d t1) as [inner [t2|t2]]; simpl in *.
        -- destruct (IH ext t2) as (Hs2 & Hk2 & Hr2); [done|lia|lia|].
           destruct (dispatch_loop run name rest ext d t2) as [cs o]; simpl in *.
           rewrite invocations_cons, is_call_of_other_listener by done.
           split; [by etrans|]. split; [lia|].
           apply removed_when_called_cons; [|by apply removed_when_called_none|done].
           by rewrite is_call_of_other_listener.
        -- rewrite invocations_cons, is_call_of_other_listener by done.
           assert (invocations name l [] = 0) as -> by done.
           split; [done|]. split; [lia|].
           apply removed_when_called_cons.
           ++ by rewrite is_call_of_other_listener.
           ++ by apply removed_when_called_none.
           ++ by apply removed_when_called_none.
Qed.

Lemma dispatch_once n d t :
  Forall (λ e, once e = true) (armed name l t) →
  length (armed name l t) ≤ 1 →
  armed name l (table_of (dispatch run n d t).2) `sublist_of` armed name l t ∧
  length (armed name l (table_of (dispatch run n d t).2)) +
    invocations name l (dispatch run n d t).1 ≤ length (armed name l t) ∧
  removed_when_called name l (dispatch run n d t).1.
Proof.
  intros Honce Hone.
  assert (∀ t0 : Table,
    armed name l t0 `sublist_of` armed name l t0 ∧
    length (armed name l t0) + invocations name l [] ≤ length (armed name l t0) ∧
    removed_when_called name l []) as Hidle.
  { intros t0. split; [done|]. split; [unfold invocations; simpl; lia|].
    by apply removed_when_called_none. }
  unfold dispatch. destruct (t !! n) as [els|] eqn:E; [|apply Hidle].
  destruct els as [|e els]; [apply Hidle|].
  change (length (e :: els) =? 0) with false. cbv iota.
  destruct (decide (n = name)) as [->|Hn].
  - assert (armed name l t = filter (λ e, listener e = l) (e :: els)) as Ha
      by (unfold armed; by rewrite E).
    pose proof (dispatch_loop_same (e :: els) [] d t) as Hloop.
    rewrite <- Ha in Hloop.
    destruct (dispatch_loop run name (e :: els) [] d t) as [cs o].
    destruct Hloop as (Hs & Hk & Hr); [done | simpl; lia | done |].
    simpl in *. split; [done|]. split; [lia | done].
  - destruct (dispatch_loop_other n (e :: els) [] d t Hn) as [Hs Hi].
    pose proof (sublist_length _ _ Hs). split; [done|]. split; [lia|].
    by apply removed_when_called_none.
Qed.

Lemma perform_once reqs t :
  Forall (λ e, once e = true) (armed name l t) →
  length (armed name l t) ≤ 1 →
  (∀ opts, Subscribe name l opts ∉ reqs) →
  length (armed name l (perform run reqs t).2) +
    invocations name l (perform run reqs t).1 ≤ length (armed name l t) ∧
  removed_when_called name l (perform run reqs t).1.
Proof.
  revert t. induction reqs as [|req reqs IH]; intros t Honce Hone Hsub.
  - simpl. split; [unfold invocations; simpl; lia|]. by apply removed_when_called_none.
  - assert (∀ opts, Subscribe name l opts ∉ reqs) as Hsub'.
    { intros opts Hin. apply (Hsub opts). by right. }
    destruct req as [n l' opts|n l'|n d]; simpl.
    + assert (armed name l (_on n l' opts t) = armed name l t) as Ha.
      { apply armed_on. intros -> ->. apply (Hsub opts). by left. }
      rewrite <- Ha in *. by apply IH.
    + pose proof (armed_off_sublist n l' None t) as Hs.
      pose proof (sublist_length _ _ Hs).
      destruct (IH (_off n l' None t)) as [Hk Hr]; [|lia|done|].
      * by eapply Forall_sublist_of.
      * split; [lia | done].
    + destruct (dispatch_once n d t Honce Hone) as (Hs & Hk & Hr).
      destruct (dispatch run n d t) as [cs o]; simpl in *.
      pose proof (sublist_length _ _ Hs).
      destruct (IH (table_of o)) as [Hk' Hr']; [|lia|done|].
      * by eapply Forall_sublist_of.
      * destruct (perform run reqs (table_of o)) as [cs' t']; simpl in *.
        rewrite invocations_app. split; [lia|].
        by apply removed_when_called_app.
Qed.
End once.

(** C8, as the code has it: a listener that has one subscription for an
    event name, with the once flag, has no entry left for that name
    whenever it is entered, and is entered at most once for that name
    across any sequence of dispatches, subscriptions and unsubscriptions,
    as long as it is not subscribed for the name again and no listener
    dispatches to it from inside a dispatch. *)
Theorem once_listener_called_at_most_once run eventName l ext reqs t :
  quiet eventName l run →
  armed eventName l t = [Entry l ext true] →
  (∀ opts, Subscribe eventName l opts ∉ reqs) →
  invocations eventName l (perform run reqs t).1 ≤ 1 ∧
  removed_when_called eventName l (perform run reqs t).1.
Proof.
  intros Hq Ha Hsub.
  destruct (perform_once eventName l run Hq reqs t) as [Hk Hr].
  - rewrite Ha. by repeat constructor.
  - rewrite Ha. simpl. lia.
  - done.
  - rewrite Ha in Hk. simpl in Hk. split; [lia | done].
Qed.

(** Two listeners, each subscribed one time for ["e"] with the once
    flag; listener 1 comes first. *)
Definition once_only : option options := Some (Options None (Some true)).

Definition two_once : Table := _on "e" 2 once_only (_on "e" 1 once_only ∅).

Lemma silent_quiet eventName l : quiet eventName l silent.
Proof. intros l' d t. simpl. by split. Qed.

Lemma once_listener_called_at_most_once_witness :
  invocations "e" 2 (perform silent [Dispatch "e" 0; Dispatch "e" 1; Dispatch "e" 2] two_once).1 ≤ 1 ∧
  removed_when_called "e" 2
    (perform silent [Dispatch "e" 0; Dispatch "e" 1; Dispatch "e" 2] two_once).1.
Proof.
  apply (once_listener_called_at_most_once silent "e" 2 false).
  - apply silent_quiet.
  - vm_compute. reflexivity.
  - intros opts Hin.
    repeat (apply elem_of_cons in Hin as [Hin|Hin]; [discriminate|]).
    by apply elem_of_nil in Hin.
Defined.

(** The same function subscribed twice for ["e"]: first for good, then
    through [on] with the once flag. *)
Definition permanent_then_once : Table := on "e" 5 once_only (_on "e" 5 None ∅).

(** When listener 1 dispatches ["e"] again from inside its call, the
    nested dispatch calls listener 2 and the outer one, which still holds
    the entry in its copy of the array, calls it a second time.  And when
    a function also has an entry without the once flag, [_off] splices
    out that one: the function is entered for its once entry while this
    entry is still there, and the next dispatch calls it again. *)
Lemma once_listener_called_twice :
  (armed "e" 2 two_once = [Entry 2 false true] ∧
   (∃ t', (dispatch (reentrant 2) "e" 0 two_once).2 = Returned t') ∧
   invocations "e" 2 (dispatch (reentrant 2) "e" 0 two_once).1 = 2 ∧
   ¬ invocations "e" 2 (perform (reentrant 2) [Dispatch "e" 0] two_once).1 ≤ 1) ∧
  (armed "e" 5 permanent_then_once = [Entry 5 false false; Entry 5 true true] ∧
   map (λ r, armed "e" 5 r.2) (all_calls (dispatch silent "e" 0 permanent_then_once).1) =
     [[Entry 5 false false; Entry 5 true true]; [Entry 5 true true]] ∧
   armed "e" 5 (table_of (dispatch silent "e" 0 permanent_then_once).2) =
     [Entry 5 true true] ∧
   map call_listener (perform silent [Dispatch "e" 0; Dispatch "e" 1; Dispatch "e" 2]
                        permanent_then_once).1 = [5; 5; 5]).
Proof.
  split.
  - split; [vm_compute; reflexivity|].
    split; [eexists; vm_compute; reflexivity|].
    split; [vm_compute; reflexivity|].
    vm_compute. lia.
  - repeat split; vm_compute; reflexivity.
Qed.

End EventBusFacts.

(** ** The registries and the readiness flag *)

Section RegistryFacts.
Import Registry.

Lemma length_new_Array n : length (new_Array n) = n.
Proof. apply length_replicate. Qed.

Lemma length_array_set i v (a : JsArray) :
  i < length a → length (array_set i v a) = length a.
Proof. intros Hi. unfold array_set. rewrite decide_True by done. apply length_insert. Qed.

Lemma lookup_array_set i v (a : JsArray) j :
  i < length a →
  array_set i v a !! j = if decide (j = i) then Some (Some v) else a !! j.
Proof.
  intros Hi. unfold array_set. rewrite decide_True by done.
  destruct (decide (j = i)) as [->|Hne].
  - by apply list_lookup_insert_eq.
  - by apply list_lookup_insert_ne.
Qed.

Lemma filter_Boolean_length (a : JsArray) : length (filter_Boolean a) = count_present a.
Proof.
  unfold filter_Boolean, count_present. induction a as [|x a IH]; [done|].
  rewrite filter_cons.
  destruct (decide (is_Some x)) as [[r ->]|Hx]; simpl.
  - f_equal. exact IH.
  - destruct x as [r|]; [|done]. exfalso. apply Hx. by exists r.
Qed.

Lemma count_present_le (a : JsArray) : count_present a ≤ length a.
Proof. apply length_filter. Qed.

Lemma count_present_full (a : JsArray) :
  count_present a = length a ↔ ∀ j, j < length a → present a j.
Proof.
  unfold count_present. induction a as [|x a IH].
  - split; [intros _ j Hj; simpl in Hj; lia | done].
  - rewrite filter_cons.
    destruct (decide (is_Some x)) as [[r ->]|Hx]; simpl.
    + split.
      * intros Hc j Hj. destruct j as [|j]; [by exists r|].
        apply IH; lia.
      * intros Hall. f_equal. apply IH. intros j Hj. apply (Hall (S j)). lia.
    + split.
      * intros Hc. pose proof (count_present_le a). unfold count_present in *. lia.
      * intros Hall. destruct (Hall 0) as [r Hr]; [lia|].
        exfalso. apply Hx. exists r. simpl in Hr. congruence.
Qed.

Lemma register_lengths mgr numPages r st :
  pageIndex_of r < numPages →
  length (pages st) = numPages →
  length (annotationEditorLayers st) = numPages →
  length (pages (register mgr st r)) = numPages ∧
  length (annotationEditorLayers (register mgr st r)) = numPages.
Proof.
  intros Hr Hp Hl. destruct r as [i ref|i ref]; simpl in *.
  - by rewrite length_array_set by lia.
  - by rewrite length_array_set by lia.
Qed.

(** The registries keep the length given by [onLoadSuccess] as long as
    the pages that register are pages of the document. *)
Lemma register_all_lengths mgr numPages rs st :
  Forall (λ r, pageIndex_of r < numPages) rs →
  length (pages st) = numPages →
  length (annotationEditorLayers st) = numPages →
  length (pages (register_all mgr rs st)) = numPages ∧
  length (annotationEditorLayers (register_all mgr rs st)) = numPages.
Proof.
  unfold register_all. intros Hrs. revert st.
  induction Hrs as [|r rs Hr Hrs IH]; intros st Hp Hl; simpl; [done|].
  destruct (register_lengths mgr numPages r st) as [Hp' Hl']; [done..|].
  by apply IH.
Qed.

(** The flag as [registerAnnotationEditorLayer] computes it, in any state. *)
Lemma canLoadAnnotations_formula mgr i ref st :
  canLoadAnnotations (registerAnnotationEditorLayer mgr i ref st) =
  bool_decide (is_Some mgr) &&
  bool_decide (0 < length (pages st)) &&
  bool_decide (count_present
                 (annotationEditorLayers (registerAnnotationEditorLayer mgr i ref st))
               = length (pages st)).
Proof.
  simpl. rewrite filter_Boolean_length. f_equal; [f_equal|].
  - destruct (Nat.ltb_spec 0 (length (pages st))).
    + by rewrite bool_decide_eq_true_2.
    + rewrite bool_decide_eq_false_2; [done | lia].
  - match goal with |- (?a =? ?b) = _ => destruct (Nat.eqb_spec a b) end.
    + by rewrite bool_decide_eq_true_2.
    + by rewrite bool_decide_eq_false_2.
Qed.

(** C2: in a document of [numPages] >= 1 pages whose editing manager is
    resolved, the flag computed by [registerAnnotationEditorLayer] is
    true exactly when no slot of the editor-layer registry is absent,
    that is exactly when the call fills the last absent slot; and it is
    the conjunction of: manager resolved, page registry not empty, as
    many editor layers present as the page registry is long. *)
Theorem readiness_after_registration mgr numPages rs pageIndex ref st0 :
  1 ≤ numPages →
  Forall (λ r, pageIndex_of r < numPages) rs →
  pageIndex < numPages →
  let before := register_all (Some mgr) rs (onLoadSuccess numPages st0) in
  let after := registerAnnotationEditorLayer (Some mgr) pageIndex ref before in
  (canLoadAnnotations after = true ↔
     ∀ j, j < numPages → present (annotationEditorLayers after) j) ∧
  (canLoadAnnotations after = true ↔
     ∀ j, j < numPages → j ≠ pageIndex → present (annotationEditorLayers before) j) ∧
  (∀ m st i r,
     canLoadAnnotations (registerAnnotationEditorLayer m i r st) =
     bool_decide (is_Some m) &&
     bool_decide (0 < length (pages st)) &&
     bool_decide (count_present
                    (annotationEditorLayers (registerAnnotationEditorLayer m i r st))
                  = length (pages st))).
Proof.
  intros HN Hrs Hi before after.
  destruct (register_all_lengths (Some mgr) numPages rs (onLoadSuccess numPages st0))
    as [Hp Hl]; [done | apply length_new_Array | apply length_new_Array |].
  fold before in Hp, Hl.
  assert (length (annotationEditorLayers after) = numPages) as Hl'.
  { subst after. simpl. rewrite length_array_set; lia. }
  assert (canLoadAnnotations after = true ↔
          ∀ j, j < numPages → present (annotationEditorLayers after) j) as Hfull.
  { pose proof (canLoadAnnotations_formula (Some mgr) pageIndex ref before) as Hf.
    fold after in Hf. rewrite Hp in Hf.
    pose proof (count_present_full (annotationEditorLayers after)) as Hc.
    rewrite Hl' in Hc.
    rewrite Hf, !andb_true_iff, !bool_decide_eq_true, Hc.
    split; [by intros [_ H] | intros H].
    split; [split; [by eexists | lia] | done]. }
  split; [exact Hfull|]. split; [|intros; apply canLoadAnnotations_formula].
  rewrite Hfull. subst after. simpl. unfold present. split.
  - intros Hall j Hj Hne. destruct (Hall j Hj) as [r Hr].
    rewrite lookup_array_set, decide_False in Hr by lia. by exists r.
  - intros Hall j Hj. rewrite lookup_array_set by lia.
    destruct (decide (j = pageIndex)); [by eexists | by apply Hall].
Qed.

(** Three pages: after the editor layers of pages 0 and 1, the layer of
    page 2 fills the last slot. *)
Lemma readiness_after_registration_witness :
  canLoadAnnotations
    (registerAnnotationEditorLayer (Some 7) 2 22
       (register_all (Some 7)
          [RegisterPage 1 11; RegisterAnnotationEditorLayer 1 21;
           RegisterAnnotationEditorLayer 0 20]
          (onLoadSuccess 3 initial))) = true.
Proof.
  destruct (readiness_after_registration 7 3
              [RegisterPage 1 11; RegisterAnnotationEditorLayer 1 21;
               RegisterAnnotationEditorLayer 0 20] 2 22 initial)
    as (_ & H & _).
  - lia.
  - repeat constructor; simpl; lia.
  - lia.
  - apply H. intros j Hj Hne.
    assert (j = 0 ∨ j = 1) as [-> | ->] by lia; eexists; reflexivity.
Defined.

(** The registries are plain arrays: a registration past the end of a
    registry makes it longer, and such an entry counts like any other.
    The pages that [Document] renders have indices below [numPages]. *)
Lemma registration_past_the_end :
  let st := registerAnnotationEditorLayer (Some 7) 2 22
              (registerAnnotationEditorLayer (Some 7) 0 20 (onLoadSuccess 2 initial)) in
  annotationEditorLayers st = [Some 20; None; Some 22] ∧ canLoadAnnotations st = true.
Proof. by split. Qed.

Lemma state_eq (s1 s2 : state) :
  pages s1 = pages s2 →
  annotationEditorLayers s1 = annotationEditorLayers s2 →
  canLoadAnnotations s1 = canLoadAnnotations s2 →
  s1 = s2.
Proof. destruct s1, s2. simpl. by intros -> -> ->. Qed.

Lemma register_all_app mgr rs1 rs2 st :
  register_all mgr (rs1 ++ rs2) st = register_all mgr rs2 (register_all mgr rs1 st).
Proof. unfold register_all. apply foldl_app. Qed.

Lemma mount_snoc pageRef layerRef order j :
  mount pageRef layerRef (order ++ [j]) =
  mount pageRef layerRef order ++
  [RegisterPage j (pageRef j); RegisterAnnotationEditorLayer j (layerRef j)].
Proof. unfold mount. by rewrite flat_map_app. Qed.

Lemma elem_of_snoc (j : nat) (order : list nat) (i : nat) :
  j ∈ order ++ [i] ↔ j ∈ order ∨ j = i.
Proof. by rewrite elem_of_app, list_elem_of_singleton. Qed.

(** The state after the pages of [order] have mounted, slot by slot. *)
Lemma mount_state mgr numPages pageRef layerRef order st :
  Forall (λ j, j < numPages) order →
  length (pages st) = numPages →
  length (annotationEditorLayers st) = numPages →
  let st' := register_all mgr (mount pageRef layerRef order) st in
  length (pages st') = numPages ∧
  length (annotationEditorLayers st') = numPages ∧
  (∀ j, pages st' !! j =
        if decide (j ∈ order) then Some (Some (pageRef j)) else pages st !! j) ∧
  (∀ j, annotationEditorLayers st' !! j =
        if decide (j ∈ order) then Some (Some (layerRef j))
        else annotationEditorLayers st !! j) ∧
  canLoadAnnotations st' =
    match order with
    | [] => canLoadAnnotations st
    | _ => bool_decide (is_Some mgr) && bool_decide (0 < numPages) &&
           bool_decide (count_present (annotationEditorLayers st') = numPages)
    end.
Proof.
  intros Hin Hp Hl. induction order as [|i order IH] using rev_ind.
  - simpl. repeat split; try done.
  - apply Forall_app in Hin as [Hin Hi]. apply Forall_inv in Hi.
    specialize (IH Hin). simpl in IH. destruct IH as (Hp' & Hl' & Hpg & Hly & _).
    rewrite mount_snoc, register_all_app.
    set (mid := register_all mgr (mount pageRef layerRef order) st) in *.
    cbn [register_all foldl register].
    set (mid1 := registerPage i (pageRef i) mid).
    assert (length (pages mid1) = numPages) as Hp1
      by (subst mid1; simpl; rewrite length_array_set; lia).
    split; [exact Hp1|].
    split; [simpl; rewrite length_array_set; lia|].
    split; [|split].
    + intros j. simpl. rewrite lookup_array_set, Hpg by lia.
      rewrite (decide_ext _ _ _ _ (elem_of_snoc j order i)).
      destruct (decide (j = i)) as [->|Hne].
      * rewrite decide_True; [done | by right].
      * destruct (decide (j ∈ order)).
        -- rewrite decide_True; [done | by left].
        -- rewrite decide_False; [done | by intros [?|?]].
    + intros j. simpl. rewrite lookup_array_set, Hly by lia.
      rewrite (decide_ext _ _ _ _ (elem_of_snoc j order i)).
      destruct (decide (j = i)) as [->|Hne].
      * rewrite decide_True; [done | by right].
      * destruct (decide (j ∈ order)).
        -- rewrite decide_True; [done | by left].
        -- rewrite decide_False; [done | by intros [?|?]].
    + rewrite canLoadAnnotations_formula, Hp1.
      by destruct order.
Qed.

Lemma mount_covering mgr numPages pageRef layerRef order1 order2 st0 :
  (∀ j, j ∈ order1 ↔ j < numPages) →
  (∀ j, j ∈ order2 ↔ j < numPages) →
  register_all mgr (mount pageRef layerRef order1) (onLoadSuccess numPages st0) =
  register_all mgr (mount pageRef layerRef order2) (onLoadSuccess numPages st0).
Proof.
  intros H1 H2.
  destruct (mount_state mgr numPages pageRef layerRef order1 (onLoadSuccess numPages st0))
    as (Hp1 & Hl1 & Hpg1 & Hly1 & Hc1);
    [apply Forall_forall; intros j; apply H1 | apply length_new_Array..|].
  destruct (mount_state mgr numPages pageRef layerRef order2 (onLoadSuccess numPages st0))
    as (Hp2 & Hl2 & Hpg2 & Hly2 & Hc2);
    [apply Forall_forall; intros j; apply H2 | apply length_new_Array..|].
  assert (∀ j, j ∈ order1 ↔ j ∈ order2) as Hsame
    by (intros j; by rewrite H1, H2).
  assert (annotationEditorLayers
            (register_all mgr (mount pageRef layerRef order1) (onLoadSuccess numPages st0)) =
          annotationEditorLayers
            (register_all mgr (mount pageRef layerRef order2) (onLoadSuccess numPages st0)))
    as Hlayers.
  { apply list_eq. intros j. rewrite Hly1, Hly2.
    by rewrite (decide_ext _ _ _ _ (Hsame j)). }
  apply state_eq.
  - apply list_eq. intros j. rewrite Hpg1, Hpg2.
    by rewrite (decide_ext _ _ _ _ (Hsame j)).
  - exact Hlayers.
  - rewrite Hc1, Hc2, Hlayers.
    destruct order1 as [|a o1], order2 as [|b o2]; try done.
    + exfalso. assert (b < numPages) as Hb by (apply H2; by left).
      apply H1 in Hb. by apply elem_of_nil in Hb.
    + exfalso. assert (a < numPages) as Ha by (apply H1; by left).
      apply H2 in Ha. by apply elem_of_nil in Ha.
Qed.

(** C3: when every page of the document mounts, registering itself and
    its editor layer, the registries and the flag end up the same
    whatever the order in which the pages arrive, also when a page
    registers more than once: the same as in the order 0, 1, ..., N-1. *)
Theorem registration_order_independent mgr numPages pageRef layerRef order st0 :
  (∀ j, j ∈ order ↔ j < numPages) →
  register_all mgr (mount pageRef layerRef order) (onLoadSuccess numPages st0) =
  register_all mgr (mount pageRef layerRef (seq 0 numPages)) (onLoadSuccess numPages st0).
Proof.
  intros Hcover. apply mount_covering; [done|].
  intros j. rewrite elem_of_seq. lia.
Qed.

Lemma registration_order_independent_witness :
  register_all (Some 7) (mount (λ j, 10 + j) (λ j, 20 + j) [2; 0; 1; 0])
    (onLoadSuccess 3 initial) =
  register_all (Some 7) (mount (λ j, 10 + j) (λ j, 20 + j) (seq 0 3))
    (onLoadSuccess 3 initial).
Proof.
  apply registration_order_independent.
  intros j. rewrite !elem_of_cons, elem_of_nil. lia.
Defined.

End RegistryFacts.

(** ** The source of the document *)

Section DocumentSourceFacts.
Import Host Resolver DocumentSource.

(** C6, as the code has it: a string that is not empty and not a data
    URI resolves to the source with this string as [url] and nothing
    else; on the way [displayCORSWarning] is called, so that there is no
    advisory exactly when the host gives no reason for that one. *)
Theorem plain_url_source u s :
  s ≠ "" →
  isDataURI u s = false →
  findDocumentSource u (Str s) =
    (displayCORSWarning u, Fulfilled (Some (Src None (Params None None (Some s) ∅)))) ∧
  ((findDocumentSource u (Str s)).1 = [] ↔ cross_origin u = false).
Proof.
  intros Hs Hd. unfold findDocumentSource. simpl.
  rewrite bool_decide_eq_false_2 by done. simpl. rewrite Hd.
  split; [done|]. simpl. unfold displayCORSWarning.
  by destruct (cross_origin u).
Qed.

Lemma plain_url_source_witness :
  findDocumentSource browser (Str "https://host/sample.pdf") =
    ([], Fulfilled (Some (Src None (Params None None (Some "https://host/sample.pdf") ∅)))).
Proof.
  destruct (plain_url_source browser "https://host/sample.pdf") as [H _].
  - discriminate.
  - reflexivity.
  - exact H.
Defined.

(** The empty string is a string and not a data URI, and there is no
    source for it; and on a host that gives reason for the cross-origin
    advisory, a plain URL comes with that advisory. *)
Lemma plain_string_without_url_or_with_advisory :
  (isDataURI browser "" = false ∧
   findDocumentSource browser (Str "") = ([], Fulfilled None)) ∧
  (let local := Utils (isDataURI browser) (dataURItoByteString browser) true
                      (loadFromFile browser) true in
   isDataURI local "https://host/sample.pdf" = false ∧
   (findDocumentSource local (Str "https://host/sample.pdf")).1 = [Warning CrossOrigin]).
Proof. repeat split. Qed.

Lemma parameter_object_resolves u id p :
  isParameterObject (Object id p) = true →
  ∃ s, (findDocumentSource u (Object id p)).2 = Fulfilled (Some s).
Proof.
  intros Hp. unfold findDocumentSource.
  change (truthy (Object id p)) with true. cbv iota. simpl negb. cbv iota.
  rewrite Hp. destruct (url p) as [s|]; [|by eexists].
  destruct (isDataURI u s); by eexists.
Qed.

(** C4, as the code has it: when the file prop, a parameter object, is
    replaced by another object that is deep-equal to it (the same keys
    with the same values, in whatever order), the advisory about the
    unnecessary reload is emitted, and the source is reset and resolved
    again all the same: a new resolved-source event follows. *)
Theorem equal_file_is_resolved_again u A B st :
  isParameterObject B = true →
  same B A = false →
  dequal B A = true →
  file st = Some A →
  prevFile st = Some A →
  let st1 := render u B st in
  let st2 := settle st1 in
  ∃ s,
    (findDocumentSource u B).2 = Fulfilled (Some s) ∧
    log st1 = log st ++ (Warning UnnecessaryReload :: (findDocumentSource u B).1) ∧
    sourceState st1 = Absent ∧
    sourceState st2 = Resolved (Some s) ∧
    log st2 = log st1 ++ [OnSourceSuccess].
Proof.
  intros Hp Hsame Hdeq Hf Hprev st1 st2.
  destruct B as [| |s|n|id tr|id bytes|id bytes|idB q]; try discriminate Hp.
  destruct A as [| |s|n|id tr|id bytes|id bytes|idA p]; try discriminate Hdeq.
  simpl in Hsame.
  destruct (parameter_object_resolves u idB q Hp) as [s Hs].
  exists s. split; [exact Hs|].
  subst st2 st1. unfold render, settle. rewrite Hf. simpl same. rewrite Hsame. simpl negb.
  cbv iota. unfold detect_equal_file. simpl truthy. simpl prevFile. rewrite Hprev.
  simpl same. rewrite Hsame, Hp, Hdeq. simpl andb. cbv iota.
  unfold resetSource, start_resolution.
  destruct (findDocumentSource u (Object idB q)) as [evs r] eqn:Hfind.
  simpl in Hs. subst r.
  unfold sourceDispatch, emit, source_effect. simpl.
  destruct (value (sourceState st)); simpl; by rewrite <- ?app_assoc.
Qed.

(** The same URL given twice as a parameter object, in two objects. *)
Definition file_A : File := Object 1 (Params None None (Some "https://host/sample.pdf") ∅).
Definition file_B : File := Object 2 (Params None None (Some "https://host/sample.pdf") ∅).

(** Two objects with the same url and the same two options, written in
    the one and in the other order. *)
Definition file_C : File :=
  Object 3 (Params None None (Some "https://host/sample.pdf")
              (<["withCredentials" := "true"]> (<["password" := "secret"]> ∅))).
Definition file_D : File :=
  Object 4 (Params None None (Some "https://host/sample.pdf")
              (<["password" := "secret"]> (<["withCredentials" := "true"]> ∅))).

Lemma equal_file_is_resolved_again_witness :
  log (settle (render browser file_D (settle (render browser file_C mounting)))) =
  log (settle (render browser file_C mounting)) ++ [Warning UnnecessaryReload; OnSourceSuccess].
Proof.
  destruct (equal_file_is_resolved_again browser file_C file_D
              (settle (render browser file_C mounting)))
    as (s & _ & H1 & _ & _ & H2); [reflexivity | reflexivity | vm_compute; reflexivity
                                   | reflexivity | reflexivity |].
  rewrite H2, H1. reflexivity.
Defined.

(** [file_B] is a new object and equal to [file_A]; replacing the one by
    the other gives a second resolved-source event after the advisory.
    With two equal array buffers there is the second event as well, and
    no advisory: the effect only looks at parameter objects. *)
Lemma equal_file_gives_new_source_event :
  (same file_B file_A = false ∧ dequal file_B file_A = true ∧
   log (settle (render browser file_A mounting)) = [OnSourceSuccess] ∧
   log (settle (render browser file_B (settle (render browser file_A mounting)))) =
     [OnSourceSuccess; Warning UnnecessaryReload; OnSourceSuccess]) ∧
  (same (ArrayBuffer 2 "%PDF") (ArrayBuffer 1 "%PDF") = false ∧
   dequal (ArrayBuffer 2 "%PDF") (ArrayBuffer 1 "%PDF") = true ∧
   log (settle (render browser (ArrayBuffer 2 "%PDF")
                  (settle (render browser (ArrayBuffer 1 "%PDF") mounting)))) =
     [OnSourceSuccess; OnSourceSuccess]).
Proof. repeat split. Qed.

End DocumentSourceFacts.

(** ** Loading the document *)

Section LoaderFacts.
Import Host Resolver Loader.

(** The failure of a load whose task has been destroyed is dropped:
    nothing is dispatched and nothing is reported. *)
Lemma destroyed_load_failure_dropped st id t error :
  tasks st !! id = Some t →
  destroyed t = true →
  pdfState (do_step st (Settle id (RejectedWith error))) = pdfState st ∧
  log (do_step st (Settle id (RejectedWith error))) = log st.
Proof.
  intros Ht Hd. simpl. rewrite Ht. destruct (settled t); [done|].
  simpl. by rewrite Hd.
Qed.

(** A load settles after the component has been unmounted: the state
    of the resolver and the log stay as they are. *)
Lemma settled_after_unmount st id o :
  mounted st = false →
  pdfState (do_step st (Settle id o)) = pdfState st ∧
  log (do_step st (Settle id o)) = log st.
Proof.
  intros Hm. simpl. destruct (tasks st !! id) as [t|]; [|done].
  destruct (settled t); [done|].
  unfold on_settled, pdfDispatch. cbn [mounted]. rewrite Hm.
  destruct o as [pdf|error]; [done|]. by destruct (destroyed t).
Qed.

(** The source 1 is being loaded (task 0) when the source changes to 2
    (task 1); then the engine fulfils task 0 with the document 100. *)
Definition superseded_load_fulfilled : list step :=
  [Render (Some 1) None; Render None None; Render (Some 2) None;
   Settle 0 (Fulfilled 100)].

(** C5 fails on the code: the task of the first source has been
    destroyed and the task of the second source is the one being loaded,
    yet the document of the first is put into the resolver and reported
    to the host as loaded. *)
Lemma superseded_load_is_applied :
  let st := run superseded_load_fulfilled mounting in
  tasks st = [Task (1, None) true true; Task (2, None) false false] ∧
  loading st = Some 1 ∧
  source st = Some 2 ∧
  pdfState st = Resolved 100 ∧
  log st = [OnLoadSuccess 100].
Proof. repeat split. Qed.

End LoaderFacts.

(** ** Download and save *)

Section DownloadFacts.
Import Host Download.

Lemma download_sink_calls e name :
  Forall (sink_call_for (url name) (filename name)) (download e name).1 ∧
  Forall (λ ev, is_error_callback ev = false) (download e name).1 ∧
  Exists (λ ev, is_sink_call ev = true) (download e name).1.
Proof.
  unfold download, download_catch.
  destruct (getData e) as [data|m]; [destruct (download_blob e data _ _) as [[]|m]|];
    simpl; (split; [|split]);
    try (repeat (constructor; [by simpl|]); by constructor);
    by apply Exists_cons_tl, Exists_cons_hd.
Qed.

(** C7: when [saveDocument] throws, the failure is logged on the
    console, then [download] runs, which calls the download manager for
    the same url and file name, and other than that only the state
    variable is set and reset: no error callback of the host is called. *)
Theorem save_failure_falls_back e name reason :
  saveDocument e = Throws reason →
  (saveWithAnnotations e name false).1 =
    [SetIsSaveInProgress true; SaveDocument;
     ConsoleError ("Error when saving the document: " +:+ reason)] ++
    (download e name).1 ++ [SetIsSaveInProgress false] ∧
  (saveWithAnnotations e name false).2 = (download e name).2 ∧
  Forall (sink_call_for (url name) (filename name)) (saveWithAnnotations e name false).1 ∧
  Exists (λ ev, is_sink_call ev = true) (saveWithAnnotations e name false).1 ∧
  Forall (λ ev, is_error_callback ev = false) (saveWithAnnotations e name false).1.
Proof.
  intros Hsave.
  destruct (download_sink_calls e name) as (Hfor & Herr & Hex).
  unfold saveWithAnnotations, saveWithAnnotations_start, saveWithAnnotations_resume.
  rewrite Hsave. unfold save_catch.
  destruct (download e name) as [evs r]. simpl in *.
  split; [done|]. split; [done|]. split; [|split].
  - repeat (constructor; [done|]). apply Forall_app. by split; [|repeat constructor].
  - do 3 apply Exists_cons_tl. apply Exists_app. by left.
  - repeat (constructor; [done|]). apply Forall_app. by split; [|repeat constructor].
Qed.

Lemma save_failure_falls_back_witness :
  (saveWithAnnotations failing_save (Some "report.pdf") false).1 =
    [SetIsSaveInProgress true; SaveDocument;
     ConsoleError "Error when saving the document: worker terminated";
     GetData; DownloadBlob "%PDF" "report.pdf" "report.pdf";
     SetIsSaveInProgress false].
Proof.
  destruct (save_failure_falls_back failing_save (Some "report.pdf") "worker terminated")
    as (H & _); [reflexivity|].
  rewrite H. reflexivity.
Defined.

Lemma download_starts_with_getData e name :
  ∃ evs, (download e name).1 = GetData :: evs.
Proof.
  unfold download, download_catch.
  destruct (getData e) as [data|m]; [destruct (download_blob e data _ _) as [[]|m]|];
    by eexists.
Qed.

Lemma saveWithAnnotations_never_starts_with_getData e name b evs :
  (saveWithAnnotations e name b).1 ≠ GetData :: evs.
Proof.
  unfold saveWithAnnotations, saveWithAnnotations_start.
  destruct b; [done|].
  destruct (saveWithAnnotations_resume e name (saveDocument e)). done.
Qed.

(** C10: [downloadWithAnnotations] runs [saveWithAnnotations] when the
    annotation storage of the document is not empty and [download]
    otherwise, and in no other case does it what [saveWithAnnotations]
    does. *)
Theorem downloadWithAnnotations_path e name b :
  downloadWithAnnotations e name b =
    (if decide (0 < annotationStorage_size e)
     then (saveWithAnnotations e name b).1 else (download e name).1) ∧
  (downloadWithAnnotations e name b = (saveWithAnnotations e name b).1 ↔
   0 < annotationStorage_size e) ∧
  (downloadWithAnnotations e name b = (download e name).1 ↔
   ¬ 0 < annotationStorage_size e).
Proof.
  unfold downloadWithAnnotations.
  destruct (download_starts_with_getData e name) as [evs Hd].
  pose proof (saveWithAnnotations_never_starts_with_getData e name b evs) as Hs.
  destruct (Nat.ltb_spec 0 (annotationStorage_size e)) as [Hlt|Hge].
  - rewrite decide_True by done. split; [done|]. split; [done|].
    split; [|lia]. intros Heq. rewrite Hd in Heq. done.
  - rewrite decide_False by lia. split; [done|]. split; [|split; [lia|done]].
    split; [|lia]. intros Heq. rewrite Hd in Heq. by symmetry in Heq.
Qed.

(** C9 fails on the code: two calls of the handler before React has
    rendered again both pass the guard, and [pdf.saveDocument()] is
    pending twice. *)
Lemma second_save_not_ignored :
  let st := run failing_save None [Invoke; Invoke] initial in
  in_flight st = 2 ∧
  log st = [SetIsSaveInProgress true; SaveDocument; SetIsSaveInProgress true; SaveDocument].
Proof. repeat split. Qed.

(** Once the effect has installed the handlers of a render that saw
    [isSaveInProgress] true, calls are ignored until the next render.  *)
Lemma save_ignored_after_commit e name st :
  isSaveInProgress st = true →
  0 < annotationStorage_size e →
  do_step e name (do_step e name st Commit) Invoke = do_step e name st Commit.
Proof.
  intros Hs Hsize. simpl.
  destruct (Nat.ltb_spec 0 (annotationStorage_size e)); [|lia].
  by rewrite Hs.
Qed.

End DownloadFacts.

(** * Further properties *)

(** ** The event bus: subscribing and unsubscribing *)

Section EventBusSubscriptions.
Import EventBus.

Lemma remove_first_absent l (els : list entry) :
  l ∉ map listener els → remove_first l els = els.
Proof.
  induction els as [|e els IH]; simpl; [done|].
  rewrite not_elem_of_cons. intros [Hne Hin].
  rewrite decide_False by done. by rewrite IH.
Qed.

Lemma remove_first_app l (pre : list entry) e rest :
  l ∉ map listener pre → listener e = l →
  remove_first l (pre ++ e :: rest) = pre ++ rest.
Proof.
  intros Hin He. induction pre as [|x pre IH]; simpl.
  - by rewrite decide_True.
  - simpl in Hin. apply not_elem_of_cons in Hin as [Hne Hin].
    rewrite decide_False by done. by rewrite IH.
Qed.

(** X1: unsubscribing a listener that is not subscribed for the event
    name, or from an event name that nobody ever subscribed to, leaves
    the bus as it is. *)
Theorem off_unknown_is_noop eventName l opts (t : Table) :
  l ∉ map listener (default [] (t !! eventName)) →
  _off eventName l opts t = t.
Proof.
  intros Hin. unfold _off. destruct (t !! eventName) as [els|] eqn:E; [|done].
  simpl in Hin. rewrite remove_first_absent by done. by apply insert_id.
Qed.

Lemma off_unknown_is_noop_witness :
  _off "pagerendered" 9 None (_on "pagerendered" 1 None ∅) = _on "pagerendered" 1 None ∅ ∧
  _off "scalechanging" 1 None (_on "pagerendered" 1 None ∅) = _on "pagerendered" 1 None ∅.
Proof.
  split; apply off_unknown_is_noop.
  - change (9 ∉ [1]). rewrite not_elem_of_cons. split; [discriminate | apply not_elem_of_nil].
  - change (1 ∉ @nil nat). apply not_elem_of_nil.
Defined.

(** X2: a listener that was not subscribed for an event name and is
    subscribed and unsubscribed again leaves every event name with the
    listeners it had, whatever the options of the subscription. *)
Theorem off_after_on eventName l opts opts' (t : Table) :
  l ∉ map listener (default [] (t !! eventName)) →
  ∀ n, default [] (_off eventName l opts' (_on eventName l opts t) !! n) =
       default [] (t !! n).
Proof.
  intros Hin n. unfold _off. rewrite _on_appends.
  destruct (decide (n = eventName)) as [->|Hne].
  - rewrite lookup_insert_eq. simpl.
    rewrite (remove_first_app l (default [] (t !! eventName)) _ []) by done.
    by rewrite app_nil_r.
  - rewrite lookup_insert_ne by done. unfold _on. by rewrite lookup_insert_ne.
Qed.

Lemma off_after_on_witness :
  default [] (_off "find" 4 None (on "find" 4 None (_on "find" 1 None ∅)) !! "find") =
  default [] (_on "find" 1 None ∅ !! "find").
Proof.
  apply (off_after_on "find" 4).
  change (4 ∉ [1]). rewrite not_elem_of_cons. split; [discriminate | apply not_elem_of_nil].
Defined.

(** X3: [_off] takes away one entry of the listener, the first one, and
    no entry of any other listener; the entries of other event names
    stay. *)
Theorem off_removes_one_entry eventName l opts (t : Table) :
  subscriptions eventName l (_off eventName l opts t) = subscriptions eventName l t - 1 ∧
  (∀ l', l' ≠ l → armed eventName l' (_off eventName l opts t) = armed eventName l' t) ∧
  (∀ n, n ≠ eventName → _off eventName l opts t !! n = t !! n).
Proof.
  split; [|split].
  - unfold subscriptions. rewrite armed_off_same, decide_True by done.
    destruct (armed eventName l t); simpl; lia.
  - intros l' Hne. rewrite armed_off_same. by rewrite decide_False.
  - intros n Hne. unfold _off. destruct (t !! eventName); [|done].
    by rewrite lookup_insert_ne.
Qed.

End EventBusSubscriptions.

(** ** The event bus: what a dispatch leaves behind *)

Section EventBusDispatch.
Import EventBus.

(** Listeners that do not subscribe or unsubscribe anything: the table
    is after each call what it was before. *)
Definition passive (run : behaviour) : Prop :=
  ∀ l d t, table_of (run l d t).2 = t.

Lemma silent_passive : passive silent.
Proof. by intros l d t. Qed.

Lemma dispatch_external_passive run n ext d t :
  passive run → table_of (dispatch_external run n ext d t).2 = t.
Proof.
  intros Hp. revert t. induction ext as [|l ext IH]; intros t; simpl; [done|].
  unfold invoke. pose proof (Hp l d t) as Hl.
  destruct (run l d t) as [inner [t1|t1]]; simpl in *; subst t1; [|done].
  specialize (IH t). by destruct (dispatch_external run n ext d t).
Qed.

(** The first loop, seen from the moment the entries [pre] of the copy
    have been handled: of those, the ones without the once flag are left. *)
Lemma dispatch_loop_passive run n pre rest ext d (t : Table) cs t' :
  passive run →
  NoDup (map listener (pre ++ rest)) →
  dispatch_loop run n rest ext d
    (<[n := filter (λ e, once e = false) pre ++ rest]> t) = (cs, Returned t') →
  t' = <[n := filter (λ e, once e = false) (pre ++ rest)]> t.
Proof.
  intros Hp. revert pre ext cs.
  induction rest as [|e rest IH]; intros pre ext cs Hnd; simpl.
  - intros Hd. pose proof (dispatch_external_passive run n ext d
      (<[n := filter (λ e, once e = false) pre ++ []]> t) Hp) as Hext.
    rewrite Hd in Hext. simpl in Hext. by rewrite Hext, !app_nil_r.
  - set (cur := <[n := filter (λ e0, once e0 = false) pre ++ e :: rest]> t).
    assert ((if once e then _off n (listener e) None cur else cur) =
            <[n := filter (λ e0, once e0 = false) (pre ++ [e]) ++ rest]> t) as Ht1.
    { rewrite filter_app, filter_cons, filter_nil. destruct (once e) eqn:Hon.
      - rewrite decide_False by done. rewrite app_nil_r.
        subst cur. unfold _off. rewrite lookup_insert_eq, insert_insert_eq.
        rewrite remove_first_app; [done| |done].
        rewrite map_app, NoDup_app in Hnd. destruct Hnd as (_ & Hdis & _).
        intros Hin. apply (Hdis (listener e)).
        + apply list_elem_of_fmap in Hin as (x & -> & Hx).
          apply list_elem_of_filter in Hx as [_ Hx].
          apply list_elem_of_fmap. by exists x.
        + simpl. by left.
      - rewrite decide_True by done. by rewrite <- app_assoc. }
    rewrite Ht1. clear Ht1 cur.
    assert (NoDup (map listener ((pre ++ [e]) ++ rest))) as Hnd'
      by (by rewrite <- app_assoc).
    replace (pre ++ e :: rest) with ((pre ++ [e]) ++ rest) by (by rewrite <- app_assoc).
    destruct (external e); [by apply IH|].
    unfold invoke.
    pose proof (Hp (listener e) d
      (<[n := filter (λ e0, once e0 = false) (pre ++ [e]) ++ rest]> t)) as Hl.
    destruct (run (listener e) d _) as [inner [t2|t2]]; simpl in Hl; subst t2; [|done].
    destruct (dispatch_loop run n rest ext d _) as [cs' o'] eqn:Hd.
    intros [= <- ->]. by eapply IH.
Qed.

(** X4: when the listeners of an event name are distinct functions that
    leave the bus alone, a dispatch that returns has removed exactly the
    entries with the once flag; the other entries keep their order, and
    the other event names their listeners. *)
Theorem dispatch_removes_once_entries run eventName data (t : Table) subscribed cs t' :
  passive run →
  t !! eventName = Some subscribed →
  NoDup (map listener subscribed) →
  dispatch run eventName data t = (cs, Returned t') →
  t' = <[eventName := filter (λ e, once e = false) subscribed]> t.
Proof.
  intros Hp Ht Hnd. unfold dispatch. rewrite Ht.
  destruct subscribed as [|e els].
  - simpl. intros [= _ <-]. by rewrite insert_id.
  - change (length (e :: els) =? 0) with false. cbv iota. intros Hd.
    apply (dispatch_loop_passive run eventName [] (e :: els) [] data t cs t' Hp Hnd).
    simpl. by rewrite insert_id.
Qed.

Lemma dispatch_removes_once_entries_witness :
  table_of (dispatch silent "e" 0 two_once).2 = <["e" := []]> two_once.
Proof.
  apply (dispatch_removes_once_entries silent "e" 0 two_once
           [Entry 1 false true; Entry 2 false true]
           (dispatch silent "e" 0 two_once).1).
  - apply silent_passive.
  - reflexivity.
  - simpl. repeat constructor; rewrite ?not_elem_of_cons; try apply not_elem_of_nil.
    split; [discriminate | apply not_elem_of_nil].
  - vm_compute. reflexivity.
Defined.

Lemma off_other_name n n' l o (t : Table) :
  n' ≠ n → _off n l o t !! n' = t !! n'.
Proof.
  intros Hne. unfold _off. destruct (t !! n); [|done]. by rewrite lookup_insert_ne.
Qed.

(** X5: a dispatch, finished or left by an exception, does not touch the
    listeners of any other event name (the listeners leaving the bus
    alone). *)
Theorem dispatch_keeps_other_names run eventName data (t : Table) n :
  passive run →
  n ≠ eventName →
  table_of (dispatch run eventName data t).2 !! n = t !! n.
Proof.
  intros Hp Hne.
  assert (∀ snapshot ext (t0 : Table),
            table_of (dispatch_loop run eventName snapshot ext data t0).2 !! n = t0 !! n)
    as Hloop.
  { induction snapshot as [|e rest IH]; intros ext t0; simpl.
    - by rewrite dispatch_external_passive.
    - set (t1 := if once e then _ else _).
      assert (t1 !! n = t0 !! n) as Ht1.
      { subst t1. destruct (once e); [|done]. by apply off_other_name. }
      clearbody t1. rewrite <- Ht1.
      destruct (external e); [apply IH|].
      unfold invoke. pose proof (Hp (listener e) data t1) as Hl.
      destruct (run (listener e) data t1) as [inner [t2|t2]]; simpl in Hl; subst t2; [|done].
      specialize (IH ext t1).
      by destruct (dispatch_loop run eventName rest ext data t1). }
  unfold dispatch. destruct (t !! eventName) as [els|]; [|done].
  destruct (length els =? 0); [done | apply Hloop].
Qed.

Lemma dispatch_keeps_other_names_witness :
  table_of (dispatch silent "e" 0 (_on "find" 3 None two_once)).2 !! "find" =
  _on "find" 3 None two_once !! "find".
Proof. apply dispatch_keeps_other_names; [apply silent_passive | discriminate]. Defined.

(** The event name and the payload of a call made by [dispatch]. *)
Definition made_for (eventName : string) (data : Data) (c : call) : Prop :=
  match c with Call n _ d _ _ => n = eventName ∧ d = data end.

(** X6: every listener that a dispatch calls is called for the
    dispatched event name and with the dispatched payload, whatever the
    listeners do. *)
Theorem dispatch_passes_payload run eventName data (t : Table) :
  Forall (made_for eventName data) (dispatch run eventName data t).1.
Proof.
  assert (∀ ext (t0 : Table),
            Forall (made_for eventName data) (dispatch_external run eventName ext data t0).1)
    as Hext.
  { induction ext as [|l ext IH]; intros t0; simpl; [constructor|].
    unfold invoke. destruct (run l data t0) as [inner [t1|t1]]; simpl.
    - specialize (IH t1). destruct (dispatch_external run eventName ext data t1).
      by constructor.
    - by repeat constructor. }
  assert (∀ snapshot ext (t0 : Table),
            Forall (made_for eventName data)
                   (dispatch_loop run eventName snapshot ext data t0).1) as Hloop.
  { induction snapshot as [|e rest IH]; intros ext t0; simpl; [apply Hext|].
    set (t1 := if once e then _ else _). clearbody t1.
    destruct (external e); [apply IH|].
    unfold invoke. destruct (run (listener e) data t1) as [inner [t2|t2]]; simpl.
    - specialize (IH ext t2). destruct (dispatch_loop run eventName rest ext data t2).
      by constructor.
    - by repeat constructor. }
  unfold dispatch. destruct (t !! eventName) as [els|]; [|constructor].
  destruct (length els =? 0); [constructor | apply Hloop].
Qed.

End EventBusDispatch.

(** ** The registries: single registrations *)

Section RegistryMore.
Import Registry.

Lemma length_array_set_any i v (a : JsArray) :
  length (array_set i v a) = length a `max` S i.
Proof.
  unfold array_set. destruct (decide (i < length a)).
  - rewrite length_insert. lia.
  - rewrite !length_app, length_replicate. simpl. lia.
Qed.

(** Slot by slot, [a[i] = v] on an array with holes. *)
Lemma lookup_array_set_any i v (a : JsArray) j :
  array_set i v a !! j =
  if decide (j = i) then Some (Some v)
  else if decide (j < length a) then a !! j
  else if decide (j < i) then Some None
  else None.
Proof.
  unfold array_set. destruct (decide (i < length a)) as [Hi|Hi].
  - destruct (decide (j = i)) as [->|Hne].
    + by apply list_lookup_insert_eq.
    + rewrite list_lookup_insert_ne by done.
      destruct (decide (j < length a)); [done|].
      rewrite lookup_ge_None_2 by lia. destruct (decide (j < i)); [lia | done].
  - destruct (decide (j < length a)) as [Hj|Hj].
    + rewrite decide_False by lia. by rewrite lookup_app_l.
    + rewrite lookup_app_r by lia.
      destruct (decide (j = i)) as [->|Hne].
      * rewrite lookup_app_r by (rewrite length_replicate; lia).
        rewrite length_replicate. by rewrite Nat.sub_diag.
      * destruct (decide (j < i)).
        -- rewrite lookup_app_l by (rewrite length_replicate; lia).
           apply lookup_replicate_2. lia.
        -- apply lookup_ge_None_2. rewrite length_app, length_replicate. simpl. lia.
Qed.

(** X7: after [registerPage(i, ref)] slot [i] of the page registry holds
    [ref], for every [i]: a slot inside the registry is overwritten, and
    for a slot past its end the registry grows to [i + 1] slots, the new
    ones in between being holes.  All other slots, the editor layers and
    the flag are as before. *)
Theorem registerPage_lookup i ref (st : state) :
  pages (registerPage i ref st) !! i = Some (Some ref) ∧
  length (pages (registerPage i ref st)) = length (pages st) `max` S i ∧
  (∀ j, j ≠ i → j < length (pages st) → pages (registerPage i ref st) !! j = pages st !! j) ∧
  (∀ j, length (pages st) ≤ j → j < i → pages (registerPage i ref st) !! j = Some None) ∧
  annotationEditorLayers (registerPage i ref st) = annotationEditorLayers st ∧
  canLoadAnnotations (registerPage i ref st) = canLoadAnnotations st.
Proof.
  simpl. split; [|split; [|split; [|split]]]; try done.
  - by rewrite lookup_array_set_any, decide_True.
  - apply length_array_set_any.
  - intros j Hne Hj. by rewrite lookup_array_set_any, decide_False, decide_True.
  - intros j Hge Hj.
    rewrite lookup_array_set_any, decide_False, decide_False, decide_True by lia. done.
Qed.

Lemma array_set_twice i v (a : JsArray) : array_set i v (array_set i v a) = array_set i v a.
Proof.
  apply list_eq. intros j. rewrite !lookup_array_set_any, length_array_set_any.
  repeat case_decide; try done; lia.
Qed.

Lemma array_set_commute i j v w (a : JsArray) :
  i ≠ j → array_set i v (array_set j w a) = array_set j w (array_set i v a).
Proof.
  intros Hne. apply list_eq. intros k.
  rewrite !lookup_array_set_any, !length_array_set_any.
  repeat case_decide; try done; lia.
Qed.

(** X8: both registrations are idempotent, for every index: registering
    the same reference for the same page a second time changes nothing. *)
Theorem registration_idempotent mgr i ref (st : state) :
  registerPage i ref (registerPage i ref st) = registerPage i ref st ∧
  registerAnnotationEditorLayer mgr i ref (registerAnnotationEditorLayer mgr i ref st) =
    registerAnnotationEditorLayer mgr i ref st.
Proof.
  unfold registerPage, registerAnnotationEditorLayer. simpl.
  by rewrite !array_set_twice.
Qed.

(** X9: registrations of the same kind for two different pages can
    arrive in either order, for all indices, inside the registry or past
    its end: the state is the same. *)
Theorem registration_commutes mgr i j r r' (st : state) :
  i ≠ j →
  registerPage i r (registerPage j r' st) = registerPage j r' (registerPage i r st) ∧
  registerAnnotationEditorLayer mgr i r (registerAnnotationEditorLayer mgr j r' st) =
    registerAnnotationEditorLayer mgr j r' (registerAnnotationEditorLayer mgr i r st).
Proof.
  intros Hne. unfold registerPage, registerAnnotationEditorLayer. simpl.
  split; by rewrite (array_set_commute i j).
Qed.

Lemma registration_commutes_witness :
  registerPage 4 14 (registerPage 0 10 (onLoadSuccess 2 initial)) =
  registerPage 0 10 (registerPage 4 14 (onLoadSuccess 2 initial)).
Proof.
  destruct (registration_commutes None 4 0 14 10 (onLoadSuccess 2 initial)) as [H _];
    [lia | exact H].
Defined.

(** A registry of [numPages] slots, all of them holding a layer, in a
    state whose flag is up. *)
Definition ready (numPages : nat) (st : state) : Prop :=
  length (pages st) = numPages ∧
  length (annotationEditorLayers st) = numPages ∧
  count_present (annotationEditorLayers st) = numPages ∧
  canLoadAnnotations st = true.

Lemma count_present_array_set i v (a : JsArray) :
  i < length a → count_present a = length a → count_present (array_set i v a) = length a.
Proof.
  intros Hi Hfull.
  rewrite <- (length_array_set i v a Hi). apply count_present_full.
  rewrite length_array_set by done. intros j Hj.
  rewrite (count_present_full a) in Hfull. unfold present.
  rewrite lookup_array_set by done.
  destruct (decide (j = i)); [by eexists | by apply Hfull].
Qed.

(** X10: the flag does not fall back: once every page of the document has
    its editor layer and the flag is up, further registrations of pages
    and layers of the document, in any number and order, leave it up
    (the editing manager staying resolved). *)
Theorem readiness_is_kept mgr numPages rs (st : state) :
  ready numPages st →
  Forall (λ r, pageIndex_of r < numPages) rs →
  ready numPages (register_all (Some mgr) rs st).
Proof.
  intros Hready Hrs. revert st Hready. unfold register_all.
  induction Hrs as [|r rs Hr Hrs IH]; intros st Hready; simpl; [done|].
  apply IH. destruct Hready as (Hp & Hl & Hc & Hf).
  destruct r as [i ref|i ref]; unfold ready; cbn [register pageIndex_of] in *.
  - cbn [registerPage pages annotationEditorLayers canLoadAnnotations].
    split; [|done]. rewrite length_array_set; lia.
  - assert (count_present (array_set i ref (annotationEditorLayers st)) = numPages) as Hc'.
    { rewrite <- Hl. apply count_present_array_set; lia. }
    cbn [registerAnnotationEditorLayer pages annotationEditorLayers canLoadAnnotations].
    split; [done|]. split; [rewrite length_array_set; lia|]. split; [done|].
    rewrite filter_Boolean_length, Hc', Hp.
    rewrite bool_decide_eq_true_2 by (by eexists).
    destruct (Nat.ltb_spec 0 numPages); [|lia]. simpl. by apply Nat.eqb_eq.
Qed.

Lemma readiness_is_kept_witness :
  canLoadAnnotations
    (register_all (Some 7)
       [RegisterAnnotationEditorLayer 0 30; RegisterPage 1 11]
       (register_all (Some 7) (mount (λ j, 10 + j) (λ j, 20 + j) [1; 0])
          (onLoadSuccess 2 initial))) = true.
Proof.
  apply (readiness_is_kept 7 2).
  - by repeat split.
  - repeat constructor; simpl; lia.
Defined.

End RegistryMore.

(** ** Internal links and the page shown *)

Section NavigationFacts.
Import Registry Navigation.

Lemma at_index_nat (a : JsArray) (i : nat) : at_index a (Z.of_nat i) = mjoin (a !! i).
Proof. unfold at_index. rewrite decide_True by lia. by rewrite Nat2Z.id. Qed.

(** X11: a page that has registered itself is found by the links to it:
    after [registerPage(i, ref)], and without [onItemClick], a link to
    page number [i + 1] scrolls [ref] into view and warns about nothing,
    whether the link names the page by number or by index. *)
Theorem registered_page_is_scrolled_to v i ref (st : state) args :
  onItemClick v = false →
  default (pageNumber args - 1)%Z (pageIndex args) = Z.of_nat i →
  (scrollPageIntoView v (pages (registerPage i ref st)) args).2 = [ScrollIntoView ref].
Proof.
  intros Hno Hidx. unfold scrollPageIntoView. rewrite Hno, Hidx, at_index_nat.
  cbn [registerPage pages]. by rewrite lookup_array_set_any, decide_True.
Qed.

Lemma registered_page_is_scrolled_to_witness :
  (scrollPageIntoView (Viewer 5 false) (pages (registerPage 2 12 (onLoadSuccess 3 initial)))
     (Args 0 3 None)).2 = [ScrollIntoView 12].
Proof. by apply registered_page_is_scrolled_to. Defined.

(** X12: without [onItemClick], a link is answered by the warning, and
    by nothing else, exactly when its page index is negative, past the
    end of the registry or the index of a slot that is still a hole; in
    particular a link to page number 0 always is.  In every case the
    viewer is back on page 1 afterwards. *)
Theorem link_warning_condition v (pages : JsArray) args :
  onItemClick v = false →
  let idx := default (pageNumber args - 1)%Z (pageIndex args) in
  ((scrollPageIntoView v pages args).2 = [LinkWarning (pageNumber args)] ↔
   ¬ ((0 ≤ idx)%Z ∧ present pages (Z.to_nat idx))) ∧
  currentPageNumber (scrollPageIntoView v pages args).1 = 1%Z.
Proof.
  intros Hno idx. unfold scrollPageIntoView. rewrite Hno. fold idx.
  unfold at_index, present. destruct (decide (0 ≤ idx)%Z) as [Hpos|Hneg].
  - destruct (pages !! Z.to_nat idx) as [[ref|]|] eqn:E; simpl.
    + split; [|done]. split; [done|]. intros Hn. exfalso. apply Hn. split; [done|]. by exists ref.
    + split; [|done]. split; [|done]. by intros _ [_ [ref Hr]].
    + split; [|done]. split; [|done]. by intros _ [_ [ref Hr]].
  - simpl. split; [|done]. split; [|done]. by intros _ [Hpos _].
Qed.

Lemma link_warning_condition_witness :
  (scrollPageIntoView (Viewer 5 false) [Some 10; Some 11] (Args 0 0 None)).2 =
    [LinkWarning 0].
Proof.
  destruct (link_warning_condition (Viewer 5 false) [Some 10; Some 11] (Args 0 0 None))
    as [[_ H] _]; [done|].
  apply H. simpl. intros [Hpos _]. lia.
Defined.

Section scroll.
Variable isPageInVew : Z → option Ref → bool.
Variable scrollTop : Z.

Lemma first_in_view_Some i (pages : JsArray) n :
  first_in_view isPageInVew scrollTop i pages = Some n ↔
  ∃ k slot, n = i + k + 1 ∧ pages !! k = Some slot ∧
            isPageInVew scrollTop slot = true ∧
            ∀ k' slot', k' < k → pages !! k' = Some slot' →
                        isPageInVew scrollTop slot' = false.
Proof.
  revert i. induction pages as [|page rest IH]; intros i; simpl.
  - split; [done|]. by intros (k & slot & _ & Hk & _).
  - destruct (isPageInVew scrollTop page) eqn:Hin.
    + split.
      * intros [= <-]. exists 0, page. repeat split; [lia|done|]. intros k' ? Hk'. lia.
      * intros (k & slot & -> & Hk & Hv & Hbefore). destruct k as [|k]; [f_equal; lia|].
        specialize (Hbefore 0 page). rewrite Hin in Hbefore.
        discriminate Hbefore; [lia | done].
    + rewrite IH. split.
      * intros (k & slot & -> & Hk & Hv & Hbefore). exists (S k), slot.
        repeat split; [lia|done|done|]. intros [|k'] slot' Hlt Hk'.
        -- simpl in Hk'. congruence.
        -- apply (Hbefore k'); [lia | done].
      * intros (k & slot & -> & Hk & Hv & Hbefore). destruct k as [|k].
        -- simpl in Hk. congruence.
        -- exists k, slot. repeat split; [lia|done|done|].
           intros k' slot' Hlt Hk'. apply (Hbefore (S k')); [lia | done].
Qed.

(** X13: the page reported on scroll is the first one in view: the
    handler sets the current page to [k + 1] exactly when the slot [k] of
    the registry is in view and no slot before it is, so the page number
    lies between 1 and the length of the registry; and it sets nothing
    exactly when no slot is in view. *)
Theorem current_page_is_first_in_view (pages : JsArray) :
  (∀ n, detectCurrentPageOnScroll isPageInVew scrollTop pages = Some n ↔
        ∃ k slot, n = k + 1 ∧ pages !! k = Some slot ∧
                  isPageInVew scrollTop slot = true ∧
                  ∀ k' slot', k' < k → pages !! k' = Some slot' →
                              isPageInVew scrollTop slot' = false) ∧
  (∀ n, detectCurrentPageOnScroll isPageInVew scrollTop pages = Some n →
        1 ≤ n ≤ length pages) ∧
  (detectCurrentPageOnScroll isPageInVew scrollTop pages = None ↔
   ∀ k slot, pages !! k = Some slot → isPageInVew scrollTop slot = false).
Proof.
  assert (detectCurrentPageOnScroll isPageInVew scrollTop pages =
          first_in_view isPageInVew scrollTop 0 pages) as ->.
  { unfold detectCurrentPageOnScroll. by destruct pages. }
  split; [|split].
  - intros n. by rewrite first_in_view_Some.
  - intros n. rewrite first_in_view_Some. intros (k & slot & -> & Hk & _).
    apply lookup_lt_Some in Hk. lia.
  - split.
    + intros Hnone k. induction k as [k IHk] using lt_wf_ind. intros slot Hk.
      destruct (isPageInVew scrollTop slot) eqn:Hv; [|done].
      assert (first_in_view isPageInVew scrollTop 0 pages = Some (k + 1)) as Hsome.
      { apply first_in_view_Some. exists k, slot. repeat split; [done|done|].
        intros k' slot' Hlt Hk'. by apply (IHk k'). }
      congruence.
    + intros Hall. destruct (first_in_view isPageInVew scrollTop 0 pages) as [n|] eqn:E;
        [|done].
      apply first_in_view_Some in E as (k & slot & _ & Hk & Hv & _).
      rewrite (Hall k slot Hk) in Hv. done.
Qed.
End scroll.

End NavigationFacts.

(** ** The source: what [findDocumentSource] returns *)

Section FindDocumentSourceFacts.
Import Host Resolver DocumentSource.

(** X14: a resolved source never has a data URI as its [url]: for every
    file, if the resolution is fulfilled by a source with a [url], this
    url is not a data URI (a data URI, given as such or as the [url] of a
    parameter object, has been turned into [data]). *)
Theorem source_url_is_no_data_URI u file source x :
  (findDocumentSource u file).2 = Fulfilled (Some source) →
  url (fields source) = Some x →
  isDataURI u x = false.
Proof.
  unfold findDocumentSource. destruct (truthy file); simpl; [|done].
  destruct file as [| |s|n|id tr|id bytes|id bytes|id p]; try done.
  - destruct (isDataURI u s) eqn:Hs; simpl; intros [= <-]; simpl; congruence.
  - simpl. by intros [= <-].
  - simpl. by intros [= <-].
  - destruct (isBrowser u); [|done]. destruct (loadFromFile u bytes); [|done].
    simpl. by intros [= <-].
  - destruct (isParameterObject (Object id p)); [|done].
    destruct (url p) as [s|] eqn:Hurl.
    + destruct (isDataURI u s) eqn:Hs; simpl; intros [= <-]; simpl; congruence.
    + simpl. intros [= <-]. simpl. congruence.
Qed.

Lemma source_url_is_no_data_URI_witness :
  isDataURI browser "https://host/sample.pdf" = false.
Proof.
  apply (source_url_is_no_data_URI browser file_A
           (Src (Some 1) (Params None None (Some "https://host/sample.pdf") ∅))).
  - reflexivity.
  - reflexivity.
Defined.

(** X15: the resolution is fulfilled by [null], no source, exactly for
    the falsy files: [null], [undefined], the empty string, zero.  Every
    other file gives a source or a failure. *)
Theorem no_source_iff_falsy u file :
  (findDocumentSource u file).2 = Fulfilled None ↔ truthy file = false.
Proof.
  unfold findDocumentSource. destruct (truthy file) eqn:Ht; simpl; [|done].
  split; [|done].
  destruct file as [| |s|n|id tr|id bytes|id bytes|id p]; try done.
  - by destruct (isDataURI u s).
  - destruct (isBrowser u); [|done]. by destruct (loadFromFile u bytes).
  - destruct (isParameterObject (Object id p)); [|done].
    destruct (url p) as [s|]; [|done]. by destruct (isDataURI u s).
Qed.

(** X16: the only advisory of [findDocumentSource] is the cross-origin
    one, and it is emitted only next to a source that has a [url]: never
    for data, ranges, blobs, data URIs or failures. *)
Theorem advisory_only_with_url u file :
  (findDocumentSource u file).1 = [] ∨
  ((findDocumentSource u file).1 = [Warning CrossOrigin] ∧
   cross_origin u = true ∧
   ∃ source x, (findDocumentSource u file).2 = Fulfilled (Some source) ∧
               url (fields source) = Some x).
Proof.
  unfold findDocumentSource, displayCORSWarning. destruct (truthy file); simpl; [|by left].
  destruct file as [| |s|n|id tr|id bytes|id bytes|id p]; try (by left).
  - destruct (isDataURI u s); [by left|]. destruct (cross_origin u); [|by left].
    right. repeat split. by eexists _, _.
  - destruct (isBrowser u); [|by left]. destruct (loadFromFile u bytes); by left.
  - destruct (isParameterObject (Object id p)); [|by left].
    destruct (url p) as [s|] eqn:Hurl; [|by left].
    destruct (isDataURI u s); [by left|]. destruct (cross_origin u); [|by left].
    right. repeat split. by eexists _, _.
Qed.

Lemma same_refl f : same f f = true.
Proof.
  destruct f; simpl; try done; try apply Nat.eqb_refl; by apply bool_decide_eq_true_2.
Qed.

(** X17: rendering again with the file of the last render, a string with
    the same characters or the very same object, does nothing: no reset
    of the source, no new resolution, no event. *)
Theorem render_same_file u f (st : state) :
  file st = Some f → render u f st = st.
Proof.
  intros Hf. unfold render. rewrite Hf, same_refl. simpl. destruct st. simpl in *. by subst.
Qed.

Lemma render_same_file_witness :
  render browser file_A (settle (render browser file_A mounting)) =
  settle (render browser file_A mounting).
Proof. by apply render_same_file. Defined.

(** [null] and [undefined] are two values of the prop: going from the one
    to the other runs the effects on [file] again, and the source, no
    source both times, is reported a second time. *)
Lemma null_then_undefined_is_a_change :
  same Undefined Null = false ∧
  log (settle (render browser Null mounting)) = [OnSourceSuccess] ∧
  log (settle (render browser Undefined (settle (render browser Null mounting)))) =
    [OnSourceSuccess; OnSourceSuccess].
Proof. repeat split. Qed.

(** [f] is not the file of the last render. *)
Definition changed (f : File) (st : state) : Prop :=
  match file st with Some f0 => same f f0 = false | None => True end.






End FindDocumentSourceFacts.

(** ** Loading: the tasks of the engine *)

Section LoaderTasks.
Import Host Resolver Loader.

(** Every loading task but the one that the next cleanup will destroy
    has been destroyed already. *)
Definition one_live_task (st : state) : Prop :=
  ∀ id t, tasks st !! id = Some t → destroyed t = false → loading st = Some id.

Definition all_destroyed (st : state) : Prop :=
  ∀ id t, tasks st !! id = Some t → destroyed t = true.

Lemma pdfDispatch_tasks a (st : state) :
  tasks (pdfDispatch a st) = tasks st ∧ loading (pdfDispatch a st) = loading st ∧
  source (pdfDispatch a st) = source st ∧ options (pdfDispatch a st) = options st.
Proof.
  unfold pdfDispatch. destruct (mounted st); [|done]. simpl.
  destruct (same_seen _ _ _); [done|].
  unfold pdf_effect, emit. simpl. by destruct (value (reducer (pdfState st) a)).
Qed.

Lemma cleanup_destroys (st : state) :
  one_live_task st → all_destroyed (cleanup st) ∧ loading (cleanup st) = None.
Proof.
  intros Hone. unfold cleanup. destruct (loading st) as [id|] eqn:Hl; simpl.
  - split; [|done]. intros j t. simpl. unfold destroy.
    destruct (tasks st !! id) as [t0|] eqn:E.
    + destruct (decide (j = id)) as [->|Hne].
      * rewrite list_lookup_insert_eq by (by eapply lookup_lt_Some). by intros [= <-].
      * rewrite list_lookup_insert_ne by done. intros Ht.
        destruct (destroyed t) eqn:Hd; [done|].
        specialize (Hone j t Ht Hd). congruence.
    + intros Ht. destruct (destroyed t) eqn:Hd; [done|].
      specialize (Hone j t Ht Hd). congruence.
  - split; [|done]. intros j t Ht. destruct (destroyed t) eqn:Hd; [done|].
    specialize (Hone j t Ht Hd). congruence.
Qed.

Lemma loadDocument_one_live (st : state) :
  all_destroyed st → one_live_task (loadDocument st).
Proof.
  intros Hall. unfold loadDocument. destruct (source st) as [src|].
  - intros j t. simpl. intros Ht Hd.
    apply lookup_app_Some in Ht as [Ht|[Hlen Ht]].
    + rewrite (Hall j t Ht) in Hd. done.
    + apply list_lookup_singleton_Some in Ht as [Hj _]. f_equal. lia.
  - intros j t Ht Hd. rewrite (Hall j t Ht) in Hd. done.
Qed.

Lemma do_step_one_live (st : state) s :
  one_live_task st → one_live_task (do_step st s).
Proof.
  intros Hone. destruct s as [src opts|id o|]; simpl.
  - set (st0 := State (mounted st) src opts (pdfState st) (tasks st) (loading st) (log st)).
    assert (one_live_task st0) as Hone0 by done.
    destruct (negb (bool_decide (src = source st))) eqn:Hs; simpl.
    + apply loadDocument_one_live.
      destruct (cleanup_destroys st0 Hone0) as [Hall _].
      intros j t. unfold resetDocument.
      destruct (pdfDispatch_tasks RESET (cleanup st0)) as (-> & _). apply Hall.
    + destruct (negb (bool_decide (opts = options st))); [|done].
      apply loadDocument_one_live. by apply cleanup_destroys.
  - destruct (tasks st !! id) as [t|] eqn:E; [|done].
    destruct (settled t); [done|].
    set (st0 := State _ _ _ _ _ _ _).
    assert (one_live_task st0) as Hone0.
    { intros j t'. subst st0. simpl. destruct (decide (j = id)) as [->|Hne].
      - rewrite list_lookup_insert_eq by (by eapply lookup_lt_Some).
        intros [= <-]. simpl. by apply Hone.
      - rewrite list_lookup_insert_ne by done. apply Hone. }
    unfold on_settled. destruct o as [pdf|e].
    + intros j t'. destruct (pdfDispatch_tasks (RESOLVE pdf) st0) as (-> & -> & _).
      apply Hone0.
    + destruct (destroyed t); [done|].
      intros j t'. destruct (pdfDispatch_tasks (REJECT e) st0) as (-> & -> & _).
      apply Hone0.
  - destruct (cleanup_destroys st Hone) as [Hall _].
    intros j t Ht Hd. simpl in Ht. rewrite (Hall j t Ht) in Hd. done.
Qed.

Lemma run_one_live steps : one_live_task (run steps mounting).
Proof.
  unfold run. rewrite <- (rev_involutive steps).
  induction (rev steps) as [|s l IH]; simpl.
  - intros id t Ht. done.
  - rewrite foldl_app. simpl. by apply do_step_one_live.
Qed.

(** The task that the next cleanup will destroy loads the source and
    the options of the last render, and has not been destroyed. *)
Definition live_task_is_current (st : state) : Prop :=
  ∀ id, loading st = Some id →
        ∃ src b, source st = Some src ∧
                 tasks st !! id = Some (Task (src, options st) false b).

Lemma loadDocument_current (st : state) :
  loading st = None → live_task_is_current (loadDocument st).
Proof.
  intros Hnone. unfold loadDocument. destruct (source st) as [src|] eqn:Hs.
  - intros id. simpl. intros [= <-]. exists src, false. split; [done|].
    rewrite lookup_app_r by done. by rewrite Nat.sub_diag.
  - intros id Hl. congruence.
Qed.

Lemma cleanup_loading (st : state) : loading (cleanup st) = None.
Proof. unfold cleanup. by destruct (loading st) eqn:E. Qed.

Lemma do_step_current (st : state) s :
  live_task_is_current st → live_task_is_current (do_step st s).
Proof.
  intros Hcur. destruct s as [src opts|id o|]; simpl.
  - destruct (bool_decide (src = source st)) eqn:Hs; simpl.
    + destruct (bool_decide (opts = options st)) eqn:Ho; simpl.
      * apply bool_decide_eq_true in Hs, Ho. subst. by destruct st.
      * apply loadDocument_current. apply cleanup_loading.
    + apply loadDocument_current. unfold resetDocument.
      destruct (pdfDispatch_tasks RESET
        (cleanup (State (mounted st) src opts (pdfState st) (tasks st) (loading st)
                        (log st)))) as (_ & -> & _).
      apply cleanup_loading.
  - destruct (tasks st !! id) as [t|] eqn:E; [|done].
    destruct (settled t) eqn:Hset; [done|].
    set (st0 := State _ _ _ _ _ _ _).
    assert (live_task_is_current st0) as Hcur0.
    { intros j. subst st0. simpl. intros Hl. destruct (Hcur j Hl) as (src & b & Hsrc & Ht).
      destruct (decide (j = id)) as [->|Hne].
      - rewrite list_lookup_insert_eq by (by eapply lookup_lt_Some).
        rewrite E in Ht. injection Ht as ->. simpl. by exists src, true.
      - rewrite list_lookup_insert_ne by done. by exists src, b. }
    assert (∀ a, live_task_is_current (pdfDispatch a st0)) as Hdisp.
    { intros a j. destruct (pdfDispatch_tasks a st0) as (-> & -> & -> & ->). apply Hcur0. }
    unfold on_settled. destruct o as [pdf|e]; [apply Hdisp|].
    destruct (destroyed t); [done | apply Hdisp].
  - intros j. simpl. by rewrite cleanup_loading.
Qed.

Lemma run_current steps : live_task_is_current (run steps mounting).
Proof.
  unfold run. rewrite <- (rev_involutive steps).
  induction (rev steps) as [|s l IH]; simpl.
  - intros id Hl. done.
  - rewrite foldl_app. simpl. by apply do_step_current.
Qed.

(** X19: whatever the renders, the settlements and their order, at every
    moment all loading tasks have been destroyed except at most one: the
    one started by the last [loadDocument], and this one loads the source
    and the options of the last render.  No load of a superseded source
    or of superseded options is left running. *)
Theorem superseded_tasks_are_destroyed steps :
  one_live_task (run steps mounting) ∧ live_task_is_current (run steps mounting).
Proof. split; [apply run_one_live | apply run_current]. Qed.

(** X20: after the component has been unmounted, every loading task that
    it started has been destroyed, the settled ones as well. *)
Theorem unmount_destroys_every_task steps :
  all_destroyed (run (steps ++ [Unmount]) mounting).
Proof.
  unfold run. rewrite foldl_app. simpl.
  pose proof (run_one_live steps) as Hone. fold (run steps mounting).
  destruct (cleanup_destroys _ Hone) as [Hall _].
  intros j t Ht. simpl in Ht. by apply (Hall j t).
Qed.

End LoaderTasks.

(** ** Download and save: failures and the flag *)

Section DownloadMore.
Import Host Download.

Local Ltac in_trace := repeat first [apply list_elem_of_here | apply list_elem_of_further].
Local Ltac not_in_trace :=
  repeat (rewrite not_elem_of_cons; split; [discriminate|]); apply not_elem_of_nil.

(** X21: [download] only fails when its last resort fails: if it throws,
    then [getData] or the download of the blob had thrown before and
    [downloadUrl], called for the same url and file name, threw the same
    error; when [getData] and the download of the blob work,
    [downloadUrl] is not called at all. *)
Theorem download_fails_only_with_downloadUrl e name :
  (∀ m, (download e name).2 = Throws m →
        downloadUrl e (url name) (filename name) = Throws m ∧
        DownloadUrl (url name) (filename name) ∈ (download e name).1) ∧
  (∀ data, getData e = Ok data →
           download_blob e data (url name) (filename name) = Ok tt →
           download e name = ([GetData; DownloadBlob data (url name) (filename name)], Ok tt)).
Proof.
  unfold download, download_catch. split.
  - intros m. destruct (getData e) as [data|m0].
    + destruct (download_blob e data _ _) as [[]|m1]; [done|]. simpl.
      intros ->. split; [done|]. in_trace.
    + simpl. intros ->. split; [done|]. in_trace.
  - intros data -> ->. done.
Qed.

Lemma download_fails_only_with_downloadUrl_witness :
  download failing_save (Some "report.pdf") =
    ([GetData; DownloadBlob "%PDF" "report.pdf" "report.pdf"], Ok tt).
Proof.
  destruct (download_fails_only_with_downloadUrl failing_save (Some "report.pdf")) as [_ H].
  by apply (H "%PDF").
Defined.

Lemma resume_ends_with_reset e name saved :
  ∃ evs, (saveWithAnnotations_resume e name saved).1 = evs ++ [SetIsSaveInProgress false].
Proof.
  unfold saveWithAnnotations_resume, save_catch.
  destruct saved as [data|reason].
  - destruct (download_blob e data _ _) as [[]|reason].
    + by eexists.
    + destruct (download e name). by eexists.
  - destruct (download e name). by eexists.
Qed.

Lemma last_set_snoc evs b c : last_set (evs ++ [SetIsSaveInProgress b]) c = b.
Proof. unfold last_set. by rewrite foldl_app. Qed.

(** X22: a call of [saveWithAnnotations] that passes the guard sets the
    flag first, calls [saveDocument] next and resets the flag last,
    whatever succeeds or throws on the way, the fallback included: the
    flag is down when the call is over. *)
Theorem save_always_resets_flag e name :
  ∃ evs, (saveWithAnnotations e name false).1 =
           SetIsSaveInProgress true :: SaveDocument :: evs ++ [SetIsSaveInProgress false] ∧
         ∀ b, last_set (saveWithAnnotations e name false).1 b = false.
Proof.
  unfold saveWithAnnotations, saveWithAnnotations_start.
  destruct (resume_ends_with_reset e name (saveDocument e)) as [evs Hevs].
  destruct (saveWithAnnotations_resume e name (saveDocument e)) as [evs' r]. simpl in *.
  subst evs'. exists evs. split; [done|]. intros b.
  change (last_set ([SetIsSaveInProgress true; SaveDocument] ++ evs ++ [SetIsSaveInProgress false]) b = false).
  by rewrite app_assoc, last_set_snoc.
Qed.

Lemma download_logs_no_error e name m : ConsoleError m ∉ (download e name).1.
Proof.
  unfold download, download_catch.
  destruct (getData e) as [data|m0]; [destruct (download_blob e data _ _) as [[]|m1]|];
    simpl; not_in_trace.
Qed.

(** X23: the console error about the save is logged exactly when the
    save did not go through, that is when [saveDocument] threw or the
    download of the saved bytes threw; a save that goes through logs
    nothing. *)
Theorem save_error_logged_iff_failed e name :
  (∃ m, ConsoleError m ∈ (saveWithAnnotations e name false).1) ↔
  (∃ reason, saveDocument e = Throws reason) ∨
  (∃ data reason, saveDocument e = Ok data ∧
                  download_blob e data (url name) (filename name) = Throws reason).
Proof.
  unfold saveWithAnnotations, saveWithAnnotations_start, saveWithAnnotations_resume, save_catch.
  pose proof (download_logs_no_error e name) as Hno.
  destruct (saveDocument e) as [data|reason].
  - destruct (download_blob e data _ _) as [[]|reason] eqn:Hblob.
    + simpl. split.
      * intros [m Hm]. exfalso.
        repeat (apply elem_of_cons in Hm as [Hm|Hm]; [discriminate|]).
        by apply elem_of_nil in Hm.
      * intros [[r Hr]|(d & r & Hd & Hr)]; [done|]. injection Hd as <-. congruence.
    + destruct (download e name) as [evs r]. simpl. split.
      * intros _. right. by exists data, reason.
      * intros _. eexists. in_trace.
  - destruct (download e name) as [evs r]. simpl. split.
    + intros _. left. by exists reason.
    + intros _. eexists. in_trace.
Qed.

Lemma url_of_not_empty name : url_of name ≠ "".
Proof.
  unfold url_of. destruct name as [s|]; [|done].
  destruct (bool_decide (s = "")) eqn:E; [done|]. by apply bool_decide_eq_false in E.
Qed.

(** A call of the download manager with a file name, equal to the url. *)
Definition named_sink_call (ev : event) : Prop :=
  match ev with
  | DownloadBlob _ u f | DownloadUrl u f => f ≠ "" ∧ u = f
  | _ => True
  end.

(** X24: whatever [downloadWithAnnotations] does, every call of the
    download manager that it makes has a file name that is not empty,
    ["annotated.pdf"] when the host gave none or an empty one, and the
    url handed over is this file name. *)
Theorem download_has_file_name e name b :
  Forall named_sink_call (downloadWithAnnotations e name b) ∧
  (name = None ∨ name = Some "" → filename name = "annotated.pdf").
Proof.
  assert (Forall named_sink_call (download e name).1) as Hd.
  { unfold download, download_catch.
    pose proof (url_of_not_empty name) as Hne.
    destruct (getData e) as [data|m0]; [destruct (download_blob e data _ _) as [[]|m1]|];
      simpl; repeat constructor; done. }
  split.
  - unfold downloadWithAnnotations. destruct (0 <? annotationStorage_size e); [|done].
    unfold saveWithAnnotations, saveWithAnnotations_start, saveWithAnnotations_resume, save_catch.
    pose proof (url_of_not_empty name) as Hne.
    destruct b; [constructor|].
    destruct (saveDocument e) as [data|reason].
    + destruct (download_blob e data _ _) as [[]|reason].
      * simpl. repeat constructor; done.
      * destruct (download e name) as [evs r]. simpl in *.
        repeat (constructor; [done|]).
        apply Forall_app. split; [done | by repeat constructor].
    + destruct (download e name) as [evs r]. simpl in *.
      repeat (constructor; [done|]).
      apply Forall_app. split; [done | by repeat constructor].
  - by intros [-> | ->].
Qed.

(** What a call of [saveWithAnnotations] has left to do while it is
    underway: nothing that sets the flag, and then the reset of the flag. *)
Definition ends_with_reset (evs : list event) : Prop :=
  ∃ pre, evs = pre ++ [SetIsSaveInProgress false] ∧
         Forall (λ ev, ∀ b, ev ≠ SetIsSaveInProgress b) pre.

Lemma download_sets_no_flag e name :
  Forall (λ ev, ∀ b, ev ≠ SetIsSaveInProgress b) (download e name).1.
Proof.
  unfold download, download_catch.
  destruct (getData e) as [data|m0]; [destruct (download_blob e data _ _) as [[]|m1]|];
    simpl; repeat constructor; done.
Qed.

Lemma resume_ends_with_reset_only e name saved :
  ends_with_reset (saveWithAnnotations_resume e name saved).1.
Proof.
  pose proof (download_sets_no_flag e name) as Hd.
  unfold saveWithAnnotations_resume, save_catch.
  destruct saved as [data|reason].
  - destruct (download_blob e data _ _) as [[]|reason].
    + eexists. split; [done|]. by repeat constructor.
    + destruct (download e name) as [evs r]. simpl in *.
      exists (DownloadBlob data (url name) (filename name) ::
              ConsoleError ("Error when saving the document: " +:+ reason) :: evs).
      split; [done|]. by repeat constructor.
  - destruct (download e name) as [evs r]. simpl in *.
    exists (ConsoleError ("Error when saving the document: " +:+ reason) :: evs).
    split; [done|]. by repeat constructor.
Qed.

(** A call that is underway runs on: either it is over and has reset
    the flag, or it is suspended again and has left the flag alone. *)
Lemma until_await_ends_with_reset evs b :
  ends_with_reset evs →
  ((until_await evs).2 = [] ∧ last_set (until_await evs).1 b = false) ∨
  ((until_await evs).2 ≠ [] ∧ ends_with_reset (until_await evs).2 ∧
   last_set (until_await evs).1 b = b).
Proof.
  intros (pre & -> & Hpre). induction Hpre as [|ev pre Hev Hpre IH]; simpl.
  - by left.
  - destruct (is_awaited ev) eqn:Haw; simpl.
    + right. split; [by destruct pre|]. split; [by exists pre|].
      by destruct ev.
    + destruct (until_await (pre ++ [SetIsSaveInProgress false])) as [now later].
      cbn [fst snd] in *.
      assert (last_set (ev :: now) b = last_set now b) as ->.
      { unfold last_set. simpl. destruct ev; try done. exfalso. by apply (Hev b0). }
      exact IH.
Qed.

(** No call of [saveWithAnnotations] is underway. *)
Definition idle (st : state) : Prop := in_flight st = 0 ∧ resumed st = [].

Lemma do_step_resumed e name (st : state) s :
  Forall ends_with_reset (resumed st) →
  Forall ends_with_reset (resumed (do_step e name st s)).
Proof.
  intros Hwf. destruct s as [| |saved|k]; simpl.
  - destruct (0 <? annotationStorage_size e); [|done]. by destruct (closed_over st).
  - done.
  - destruct (in_flight st) as [|n]; [done|].
    destruct (until_await_ends_with_reset _ (isSaveInProgress st)
                (resume_ends_with_reset_only e name saved)) as [[Hl _]|(Hne & Hl & _)];
      destruct (until_await _) as [now later];
      cbn [fst snd isSaveInProgress in_flight resumed closed_over log] in *.
    + by subst later.
    + destruct later; [done|]. apply Forall_app. by split; [|repeat constructor].
  - destruct (resumed st !! k) as [evs|] eqn:Hk; [|done].
    assert (ends_with_reset evs) as Hevs by (by eapply Forall_lookup_1).
    destruct (until_await_ends_with_reset _ (isSaveInProgress st) Hevs)
      as [[Hl _]|(Hne & Hl & _)];
      destruct (until_await evs) as [now later];
      cbn [fst snd isSaveInProgress in_flight resumed closed_over log] in *.
    + subst later. by apply Forall_delete.
    + destruct later; [done|]. by apply Forall_insert.
Qed.

Lemma run_resumed e name steps :
  Forall ends_with_reset (resumed (run e name steps initial)).
Proof.
  unfold run. rewrite <- (rev_involutive steps).
  induction (rev steps) as [|s l IH]; simpl; [constructor|].
  rewrite foldl_app. simpl. by apply do_step_resumed.
Qed.

(** X25: when no call of [saveWithAnnotations] is underway, none waiting
    for [saveDocument] and none suspended at a later await of the
    download or the fallback, the state variable [isSaveInProgress] is
    false, after any sequence of calls, renders and settlements: the
    flag does not stay up. *)
Theorem flag_down_when_idle e name steps :
  idle (run e name steps initial) →
  isSaveInProgress (run e name steps initial) = false.
Proof.
  unfold idle, run. rewrite <- (rev_involutive steps).
  induction (rev steps) as [|s l IH]; simpl; [done|].
  rewrite foldl_app. simpl.
  pose proof (run_resumed e name (rev l)) as Hwf. unfold run in Hwf.
  set (st := foldl (do_step e name) initial (rev l)) in *. clearbody st.
  destruct s as [| |saved|k]; simpl.
  - destruct (0 <? annotationStorage_size e); [|done].
    destruct (closed_over st); simpl; [done | by intros [? _]].
  - done.
  - destruct (in_flight st) as [|n] eqn:Hn; [intros [_ Hr]; by apply IH|].
    destruct (until_await_ends_with_reset _ (isSaveInProgress st)
                (resume_ends_with_reset_only e name saved)) as [[Hl Hs]|(Hne & Hl & _)];
      destruct (until_await _) as [now later];
      cbn [fst snd isSaveInProgress in_flight resumed closed_over log] in *.
    + by intros _.
    + destruct later; [done|]. intros [_ Habs]. by destruct (resumed st).
  - destruct (resumed st !! k) as [evs|] eqn:Hk; [|done].
    assert (ends_with_reset evs) as Hevs by (by eapply Forall_lookup_1).
    destruct (until_await_ends_with_reset _ (isSaveInProgress st) Hevs)
      as [[Hl Hs]|(Hne & Hl & _)];
      destruct (until_await evs) as [now later];
      cbn [fst snd isSaveInProgress in_flight resumed closed_over log] in *.
    + by intros _.
    + destruct later; [done|]. intros [_ Habs].
      apply (f_equal length) in Habs. rewrite length_insert in Habs.
      apply lookup_lt_Some in Hk. simpl in Habs. lia.
Qed.

Lemma flag_down_when_idle_witness :
  isSaveInProgress
    (run failing_save None
       [Invoke; Commit; Invoke; Finish (Throws "worker terminated"); Resume 0; Resume 0;
        Resume 0]
       initial) = false.
Proof. apply flag_down_when_idle. by split. Defined.

(** The steps as they come when React has rendered again, and the effect
    has installed the new handler, before each call of the handler. *)
Definition rendered_before_each_call (steps : list step) : list step :=
  flat_map (λ s, match s with Invoke => [Commit; Invoke] | _ => [s] end) steps.

(** The calls of [saveWithAnnotations] that are underway. *)
Definition underway (st : state) : nat := in_flight st + length (resumed st).

(** One save at most is underway, and the flag says whether one is. *)
Definition single_flight (st : state) : Prop :=
  underway st ≤ 1 ∧ (isSaveInProgress st = true ↔ underway st = 1).

(** X26: the guard of [saveWithAnnotations] does its work when a render
    separates the requests: if React has rendered before each call of the
    handler, at most one call of [saveWithAnnotations] is underway at any
    time, from its [saveDocument] through the download, the fallback and
    the reset of the flag, and the flag is up exactly while one is; a
    request made meanwhile is ignored. *)
Theorem one_save_at_a_time_when_rendered e name steps :
  single_flight (run e name (rendered_before_each_call steps) initial).
Proof.
  assert (∀ steps,
            single_flight (run e name (rendered_before_each_call steps) initial) ∧
            Forall ends_with_reset
                   (resumed (run e name (rendered_before_each_call steps) initial)))
    as Hboth; [|apply Hboth].
  clear steps. intros steps. split; [|apply run_resumed].
  unfold run, rendered_before_each_call. rewrite <- (rev_involutive steps).
  induction (rev steps) as [|s l IH]; simpl.
  - split; [unfold underway; simpl; lia|]. unfold underway. simpl. split; [done | lia].
  - rewrite flat_map_app, foldl_app. simpl.
    pose proof (run_resumed e name
                  (flat_map (λ s, match s with Invoke => [Commit; Invoke] | _ => [s] end)
                            (rev l))) as Hwf.
    unfold run in Hwf.
    set (st := foldl (do_step e name) initial _) in *. clearbody st.
    pose proof IH as [Hle Hiff]. unfold single_flight, underway in *.
    destruct s as [| |saved|k]; simpl.
    + destruct (0 <? annotationStorage_size e); [|exact IH].
      destruct (isSaveInProgress st) eqn:Hflag; simpl; [exact IH|].
      assert (in_flight st + length (resumed st) = 0) as Hzero.
      { destruct (in_flight st + length (resumed st)) as [|[|n]]; [done| |lia].
        destruct Hiff as [_ Hback]. by specialize (Hback eq_refl). }
      assert (in_flight st = 0) as -> by lia. split; [lia|]. split; [lia | done].
    + exact IH.
    + destruct (in_flight st) as [|n] eqn:Hn; [by rewrite Hn|].
      destruct (until_await_ends_with_reset _ (isSaveInProgress st)
                  (resume_ends_with_reset_only e name saved)) as [[Hl Hs]|(Hne & Hl & Hs)];
        destruct (until_await _) as [now later];
      cbn [fst snd isSaveInProgress in_flight resumed closed_over log] in *.
      * subst later. rewrite Hs. split; [lia|]. split; [done | lia].
      * destruct later as [|x later]; [done|]. rewrite Hs, length_app. simpl.
        split; [lia|]. rewrite Hiff. lia.
    + destruct (resumed st !! k) as [evs|] eqn:Hk; [|exact IH].
      assert (ends_with_reset evs) as Hevs by (by eapply Forall_lookup_1).
      pose proof (lookup_lt_Some _ _ _ Hk) as Hlt.
      destruct (until_await_ends_with_reset _ (isSaveInProgress st) Hevs)
        as [[Hl Hs]|(Hne & Hl & Hs)];
        destruct (until_await evs) as [now later];
      cbn [fst snd isSaveInProgress in_flight resumed closed_over log] in *.
      * subst later. rewrite Hs, length_delete by (by eexists).
        split; [lia|]. split; [done | lia].
      * destruct later as [|x later]; [done|]. rewrite Hs, length_insert.
        split; [lia | exact Hiff].
Qed.

End DownloadMore.

(** ** The editor layer of a page *)

Section EditorLayerFacts.
Import Registry EditorLayer.

(** All five dependencies of the effect are given. *)
Definition all_given (d : deps) : bool :=
  match d with
  | Deps true true true true true => true
  | _ => false
  end.

Lemma run_effect_not_given pageIndex reg layer d created :
  all_given d = false → run_effect pageIndex reg layer d created = (layer, []).
Proof. unfold run_effect. by destruct d as [[] [] [] [] []]. Qed.

Lemma run_effect_given pageIndex reg layer d created :
  all_given d = true →
  run_effect pageIndex reg layer d created =
  match layer with
  | Some l => (layer, [Update l])
  | None => getAnnotationEditorLayer pageIndex reg created
  end.
Proof. unfold run_effect. by destruct d as [[] [] [] [] []]. Qed.

Lemma run_effects_updates pageIndex reg layer runs :
  run_effects pageIndex reg (Some layer) runs =
  (Some layer, map (λ _, Update layer) (filter (λ r, all_given r.1 = true) runs)).
Proof.
  induction runs as [|[d created] rest IH]; simpl; [done|].
  rewrite filter_cons. simpl. destruct (all_given d) eqn:Hd.
  - rewrite run_effect_given, IH by done. by rewrite decide_True.
  - rewrite run_effect_not_given, IH by done. by rewrite decide_False.
Qed.

(** X27: over the life of an editor-layer component, as long as one of
    the five dependencies (manager, viewport, annotation layer, text
    layer ref, draw layer) is missing, the effect does nothing and no
    layer exists; the first run in which all five are given creates the
    layer, renders it and registers it for the page; and from then on
    every run with all five given updates this same layer and every other
    run does nothing: the page registers one editor layer, once. *)
Theorem editor_layer_registered_once pageIndex before d created after :
  Forall (λ r, all_given r.1 = false) before →
  all_given d = true →
  run_effects pageIndex true None before = (None, []) ∧
  run_effects pageIndex true None (before ++ (d, created) :: after) =
    (Some created,
     Render created :: Register pageIndex created ::
     map (λ _, Update created) (filter (λ r, all_given r.1 = true) after)).
Proof.
  intros Hbefore Hd. induction Hbefore as [|[d0 c0] before Hd0 Hbefore IH]; simpl.
  - split; [done|]. rewrite run_effect_given by done. simpl.
    by rewrite run_effects_updates.
  - simpl in Hd0. rewrite run_effect_not_given by done.
    destruct IH as [-> ->]. done.
Qed.

Lemma editor_layer_registered_once_witness :
  run_effects 2 true None
    [(Deps false true true true true, 40); (Deps true true false true true, 41);
     (Deps true true true true true, 42); (Deps true true true true false, 43);
     (Deps true true true true true, 44)] =
  (Some 42, [Render 42; Register 2 42; Update 42]).
Proof.
  apply (editor_layer_registered_once 2
           [(Deps false true true true true, 40); (Deps true true false true true, 41)]
           (Deps true true true true true) 42
           [(Deps true true true true false, 43); (Deps true true true true true, 44)]).
  - by repeat constructor.
  - reflexivity.
Defined.

End EditorLayerFacts.
